(** * QuickEdit (qe) v0.2.0: navigation engine, key dispatch and search

    A shallow embedding of [qe.c]: the editor is a record, the memory-mapped
    file is a list of bytes read and written through bounds-checked accessors,
    and every C routine that can read or write outside the mapping returns an
    outcome that records it.  Fixed-width C integers are integers of [Z] with
    their wrap-around written where the code converts or increments them. *)

From Stdlib Require Import ZArith Lia Ascii String.
From stdpp Require Import base list.

Open Scope Z_scope.

(** ** Machine integers *)

Definition wrap_u (bits z : Z) : Z := z mod 2 ^ bits.
Definition wrap_s (bits z : Z) : Z :=
  (z + 2 ^ (bits - 1)) mod 2 ^ bits - 2 ^ (bits - 1).

Definition to_uint8 : Z -> Z := wrap_u 8.
Definition to_uint16 : Z -> Z := wrap_u 16.
Definition to_int32 : Z -> Z := wrap_s 32.
Definition to_size_t : Z -> Z := wrap_u 64.

Definition INT32_MAX : Z := 2 ^ 31 - 1.

(** ** Bytes and keys *)

Definition byte_of (c : ascii) : Z := Z.of_N (N_of_ascii c).
Definition bytes_of (s : string) : list Z := map byte_of (list_ascii_of_string s).

(** ['\n'] *)
Definition NL : Z := 10.

(** [#define CTRL(k) ((k & 0x1f))] *)
Definition CTRL (k : Z) : Z := Z.land k 31.

Definition TAB : Z := 9.
Definition ENTER : Z := 13.
Definition ESC : Z := 27.
Definition BACKSPACE : Z := 127.
Definition HOME : Z := 511.
Definition END_ : Z := 512.
Definition DEL : Z := 513.
Definition PGUP : Z := 514.
Definition PGDN : Z := 515.
Definition ARROW_UP : Z := 516.
Definition ARROW_DOWN : Z := 517.
Definition ARROW_RIGHT : Z := 518.
Definition ARROW_LEFT : Z := 519.

(** ** The editor and the terminal *)

Inductive edit_mode : Type := MODE_NORMAL | MODE_INSERT | MODE_SEARCH.

(** What [status_buffer] was last formatted from: the file position
    ([qe_update_status_buffer]) or the pattern being typed (search mode). *)
Inductive status_line : Type :=
| StatusPosition (m : edit_mode) (po pox : Z)
| StatusSearch (pattern : list Z).

Record editor : Type := mkEditor {
  dirty : bool;
  dirty_cursor : bool;
  read_only : bool;
  wrap : bool;
  status_buffer : status_line;
  page : list Z;            (* the mapped bytes of the file *)
  page_offset : Z;          (* int64_t *)
  page_offset_x : Z;        (* int64_t *)
  cursor_x : Z;             (* uint16_t *)
  cursor_y : Z;             (* uint16_t *)
  mode : edit_mode;
  search_buf : list Z;      (* char[64] *)
  search_len : Z            (* size_t *)
}.

Record terminal : Type := mkTerminal {
  width : Z;                (* int16_t *)
  height : Z                (* int16_t *)
}.

(** [editor.file.st_size]: the mapping is exactly as long as the file. *)
Definition st_size (e : editor) : Z := Z.of_nat (length (page e)).

Definition set_dirty (v : bool) (e : editor) : editor :=
  mkEditor v (dirty_cursor e) (read_only e) (wrap e) (status_buffer e) (page e)
    (page_offset e) (page_offset_x e) (cursor_x e) (cursor_y e) (mode e)
    (search_buf e) (search_len e).
Definition set_dirty_cursor (v : bool) (e : editor) : editor :=
  mkEditor (dirty e) v (read_only e) (wrap e) (status_buffer e) (page e)
    (page_offset e) (page_offset_x e) (cursor_x e) (cursor_y e) (mode e)
    (search_buf e) (search_len e).
Definition set_wrap (v : bool) (e : editor) : editor :=
  mkEditor (dirty e) (dirty_cursor e) (read_only e) v (status_buffer e) (page e)
    (page_offset e) (page_offset_x e) (cursor_x e) (cursor_y e) (mode e)
    (search_buf e) (search_len e).
Definition set_status_buffer (v : status_line) (e : editor) : editor :=
  mkEditor (dirty e) (dirty_cursor e) (read_only e) (wrap e) v (page e)
    (page_offset e) (page_offset_x e) (cursor_x e) (cursor_y e) (mode e)
    (search_buf e) (search_len e).
Definition set_page (v : list Z) (e : editor) : editor :=
  mkEditor (dirty e) (dirty_cursor e) (read_only e) (wrap e) (status_buffer e) v
    (page_offset e) (page_offset_x e) (cursor_x e) (cursor_y e) (mode e)
    (search_buf e) (search_len e).
Definition set_page_offset (v : Z) (e : editor) : editor :=
  mkEditor (dirty e) (dirty_cursor e) (read_only e) (wrap e) (status_buffer e) (page e)
    v (page_offset_x e) (cursor_x e) (cursor_y e) (mode e)
    (search_buf e) (search_len e).
Definition set_page_offset_x (v : Z) (e : editor) : editor :=
  mkEditor (dirty e) (dirty_cursor e) (read_only e) (wrap e) (status_buffer e) (page e)
    (page_offset e) v (cursor_x e) (cursor_y e) (mode e)
    (search_buf e) (search_len e).
Definition set_cursor_x (v : Z) (e : editor) : editor :=
  mkEditor (dirty e) (dirty_cursor e) (read_only e) (wrap e) (status_buffer e) (page e)
    (page_offset e) (page_offset_x e) v (cursor_y e) (mode e)
    (search_buf e) (search_len e).
Definition set_cursor_y (v : Z) (e : editor) : editor :=
  mkEditor (dirty e) (dirty_cursor e) (read_only e) (wrap e) (status_buffer e) (page e)
    (page_offset e) (page_offset_x e) (cursor_x e) v (mode e)
    (search_buf e) (search_len e).
Definition set_mode (v : edit_mode) (e : editor) : editor :=
  mkEditor (dirty e) (dirty_cursor e) (read_only e) (wrap e) (status_buffer e) (page e)
    (page_offset e) (page_offset_x e) (cursor_x e) (cursor_y e) v
    (search_buf e) (search_len e).
Definition set_search_buf (v : list Z) (e : editor) : editor :=
  mkEditor (dirty e) (dirty_cursor e) (read_only e) (wrap e) (status_buffer e) (page e)
    (page_offset e) (page_offset_x e) (cursor_x e) (cursor_y e) (mode e)
    v (search_len e).
Definition set_search_len (v : Z) (e : editor) : editor :=
  mkEditor (dirty e) (dirty_cursor e) (read_only e) (wrap e) (status_buffer e) (page e)
    (page_offset e) (page_offset_x e) (cursor_x e) (cursor_y e) (mode e)
    (search_buf e) v.

(** [qe_init], then [qe_args] (the two flags), [qe_open] (the mapping) and the
    first [qe_update_status_buffer] of [main]. *)
Definition qe_init (ro wr : bool) (file : list Z) : editor :=
  mkEditor true false ro wr (StatusPosition MODE_NORMAL 0 0) file
    0 0 0 0 MODE_NORMAL (replicate 64 0) 0.

(** ** Memory accesses

    [buf[off]] is defined for [0 <= off < length buf] only; [None] is an
    access outside the object. *)
Definition byte_at (buf : list Z) (off : Z) : option Z :=
  if off <? 0 then None else buf !! Z.to_nat off.

Definition byte_store (buf : list Z) (off : Z) (v : Z) : option (list Z) :=
  if (0 <=? off) && (off <? Z.of_nat (length buf))
  then Some (<[Z.to_nat off := to_uint8 v]> buf)
  else None.

(** What one call leaves behind: it returns, the process exits ([exit(0)]), or
    it touches memory outside the object it indexes (the editor is the state
    at that point). *)
Inductive outcome : Type :=
| Done (e : editor)
| Exited (e : editor)
| Crashed (e : editor).

Definition bind (o : outcome) (k : editor -> outcome) : outcome :=
  match o with
  | Done e => k e
  | Exited e => Exited e
  | Crashed e => Crashed e
  end.

Definition state_of (o : outcome) : editor :=
  match o with Done e | Exited e | Crashed e => e end.

(** ** Status line *)

(** [qe_update_status_buffer] formats the text from the mode and the two
    offsets.  The text also shows [through = 100 * page_offset / st_size],
    computed when [page_offset <> 0]: on an empty file that division traps,
    so the properties below that state a normal return are about files of at
    least one byte. *)
Definition qe_update_status_buffer (e : editor) : editor :=
  set_status_buffer (StatusPosition (mode e) (page_offset e) (page_offset_x e)) e.

(** ** Vertical scrolling: [qe_move_window_y] *)

(** How the scan over the file ended. *)
Inductive scan : Type :=
| Clamp (po : Z)      (* ran off an edge of the file: the early returns *)
| Land (po : Z)       (* left through [break] *)
| Fault (po : Z)      (* read outside the mapping at [po] *)
| Exhausted.           (* fuel used up *)

(** The backward branch after the last newline was counted:
    [while (po != 0 && page[po] != '\n') po -= 1;  if (po != 0) po += 1;] *)
Fixpoint line_start (fuel : nat) (pg : list Z) (po : Z) : scan :=
  match fuel with
  | O => Exhausted
  | S fuel' =>
      if po =? 0 then Land 0
      else match byte_at pg po with
           | None => Fault po
           | Some b =>
               if b =? NL then Land (po + 1)
               else line_start fuel' pg (po - 1)
           end
  end.

(** The [while (1)] loop, one iteration per unit of fuel. *)
Fixpoint scan_newlines (fuel : nat) (pg : list Z) (step an i po : Z) : scan :=
  match fuel with
  | O => Exhausted
  | S fuel' =>
      if po <? 0 then Clamp 0
      else if po >=? Z.of_nat (length pg) then Clamp (Z.of_nat (length pg) - 1)
      else match byte_at pg po with
           | None => Fault po
           | Some b =>
               if b =? NL then
                 let i' := to_int32 (i + 1) in
                 if i' >? an then
                   let po' := po + step in
                   if step <? 0
                   then line_start (S (Z.to_nat po')) pg po'
                   else Land po'
                 else scan_newlines fuel' pg step an i' (po + step)
               else scan_newlines fuel' pg step an i (po + step)
           end
  end.

Definition scroll_step (n : Z) : Z := if n >? 0 then 1 else -1.
Definition scroll_count (n : Z) : Z := if n >? 0 then n else to_int32 (- n).

(** The scan of [qe_move_window_y n] from offset [po]; the fuel covers every
    byte of the file once (see [scan_newlines_total]). *)
Definition scroll_scan (pg : list Z) (n po : Z) : scan :=
  scan_newlines (S (length pg)) pg (scroll_step n) (scroll_count n) 0 po.

Definition qe_move_window_y (n : Z) (e : editor) : outcome :=
  match scroll_scan (page e) n (page_offset e) with
  | Clamp po => Done (qe_update_status_buffer (set_page_offset po e))
  | Land po =>
      Done (set_dirty true (qe_update_status_buffer (set_page_offset po e)))
  | Fault po => Crashed (set_page_offset po e)
  | Exhausted => Crashed e
  end.

(** ** Horizontal scrolling: [qe_move_window_x] *)

Definition qe_move_window_x (n : Z) (e : editor) : outcome :=
  let e1 := set_page_offset_x (page_offset_x e + n) e in
  if page_offset_x e1 <? 0
  then Done (qe_update_status_buffer (set_page_offset_x 0 e1))
  else Done (set_dirty true (qe_update_status_buffer e1)).

(** ** libc scans over the mapping

    Pointers into a buffer are offsets from its start.  [memchr] and [memmem]
    are given the bytes [off, off + cnt) of the buffer; the callers check that
    this range lies inside it. *)
Definition range_ok (buf : list Z) (off cnt : Z) : bool :=
  (0 <=? off) && (0 <=? cnt) && (off + cnt <=? Z.of_nat (length buf)).

Definition mem_range (buf : list Z) (off cnt : Z) : list Z :=
  take (Z.to_nat cnt) (drop (Z.to_nat off) buf).

(** First occurrence of [ch] in [bytes], which start at offset [base]. *)
Fixpoint find_byte (bytes : list Z) (ch base : Z) : option Z :=
  match bytes with
  | [] => None
  | b :: rest => if b =? ch then Some base else find_byte rest ch (base + 1)
  end.

Definition memchr (buf : list Z) (off ch cnt : Z) : option Z :=
  find_byte (mem_range buf off cnt) ch off.

(** [memcmp(hay, needle, |needle|) == 0] when [hay] is long enough. *)
Fixpoint starts_with (needle hay : list Z) : bool :=
  match needle, hay with
  | [], _ => true
  | _ :: _, [] => false
  | a :: needle', b :: hay' => (a =? b) && starts_with needle' hay'
  end.

(** First occurrence of [needle] in [hay], which starts at offset [base];
    an empty needle is found at once (glibc and musl return the haystack). *)
Fixpoint find_bytes (hay needle : list Z) (base : Z) : option Z :=
  if starts_with needle hay then Some base
  else match hay with
       | [] => None
       | _ :: hay' => find_bytes hay' needle (base + 1)
       end.

(** [memmem(hay + off, cnt, needle, nlen)] with the needle in [nbuf]: the
    outer [None] is a needle read past the end of [nbuf], the inner one is
    [NULL].  A needle longer than the haystack is rejected before it is read.
    [cnt] is the length as the caller computes it: when it is negative the
    haystack ends before it starts and holds no window of the needle. *)
Definition memmem (buf : list Z) (off cnt : Z) (nbuf : list Z) (nlen : Z)
  : option (option Z) :=
  if nlen =? 0 then Some (Some off)
  else if cnt <? nlen then Some None
  else if nlen <=? Z.of_nat (length nbuf)
  then Some (find_bytes (mem_range buf off cnt) (take (Z.to_nat nlen) nbuf) off)
  else None.

(** ** The byte under the cursor: [qe_get_cursor_byte_position] *)

Inductive row_scan : Type :=
| RowAt (offset : Z)   (* the [for] loop ran to its end *)
| RowEof               (* [memchr] found no newline: [return st_size - 1] *)
| RowFault.            (* [memchr] was handed a range outside the mapping *)

(** The [for] loop over [cursor_y] rows.  The assignment
    [offset = s - &editor.page[offset]] keeps the distance from the old offset
    to the newline found. *)
Fixpoint skip_rows (rows : nat) (pg : list Z) (offset : Z) : row_scan :=
  match rows with
  | O => RowAt offset
  | S rows' =>
      let cnt := Z.of_nat (length pg) - offset in
      if range_ok pg offset cnt then
        match memchr pg offset NL cnt with
        | None => RowEof
        | Some s => skip_rows rows' pg (s - offset + 1)
        end
      else RowFault
  end.

Definition qe_get_cursor_byte_position (e : editor) : option Z :=
  match skip_rows (Z.to_nat (cursor_y e)) (page e) (page_offset e) with
  | RowFault => None
  | RowEof => Some (st_size e - 1)
  | RowAt offset =>
      let offset := offset + (page_offset_x e + cursor_x e) in
      Some (if offset >=? st_size e then st_size e - 1 else offset)
  end.

(** ** Search: [qe_search] *)

(** The bytes of [search_buf] that [memmem] is given as the needle. *)
Definition search_pattern (e : editor) : list Z :=
  take (Z.to_nat (search_len e)) (search_buf e).

(** [None]: the haystack begins before the mapping, or [memmem] reads past
    [search_buf].  The not-found sentinel is [-1].  From an offset beyond the
    size the length [st_size - offset] is negative; the haystack still ends
    at [page + st_size], so no window of a non-empty needle is compared and
    the result is [-1], while an empty needle is found at [offset] at once.
    The editor itself passes offsets from 0 to the size only. *)
Definition qe_search (e : editor) (offset : Z) : option Z :=
  if offset <? 0 then None
  else
    match memmem (page e) offset (st_size e - offset) (search_buf e) (search_len e) with
    | None => None
    | Some None => Some (-1)
    | Some (Some p) => Some p
    end.

(** ** Cursor movement: [qe_move_cursor_x], [qe_move_cursor_y] *)

Definition qe_move_cursor_x (t : terminal) (x : Z) (e : editor) : outcome :=
  let new_x := to_int32 (page_offset_x e + cursor_x e + x) in
  if new_x <? 0 then
    let e1 := set_page_offset_x 0 e in
    let e2 := set_cursor_x (if cursor_x e =? 0 then 0 else to_uint16 (width t - 1)) e1 in
    Done (set_dirty_cursor true (set_dirty true (qe_update_status_buffer e2)))
  else if new_x >=? width t then
    let e1 := set_page_offset_x (new_x - Z.rem new_x (width t)) e in
    let e2 := set_cursor_x (to_uint16 (Z.rem new_x (width t))) e1 in
    Done (set_dirty_cursor true (set_dirty true (qe_update_status_buffer e2)))
  else
    let moved := Done (set_dirty_cursor true (set_cursor_x (to_uint16 (cursor_x e + x)) e)) in
    if x >? 0 then
      match qe_get_cursor_byte_position e with
      | None => Crashed e
      | Some off =>
          match byte_at (page e) (to_size_t (to_size_t off + 1)) with
          | None => Crashed e
          | Some b => if b =? NL then Done e else moved
          end
      end
    else moved.

Definition qe_move_cursor_y (t : terminal) (y : Z) (e : editor) : outcome :=
  let new_y := to_int32 (cursor_y e + y) in
  if new_y <? 0 then
    if page_offset e =? 0 then Done e
    else
      bind (qe_move_window_y (to_int32 (Z.quot (- height t) 2)) e) (fun e1 =>
      Done (set_dirty_cursor true (set_dirty true
             (set_cursor_y (to_uint16 (height t - 2)) e1))))
  else if new_y >=? height t - 1 then
    bind (qe_move_window_y (to_int32 (Z.quot (height t) 2)) e) (fun e1 =>
    Done (set_dirty_cursor true (set_dirty true (set_cursor_y 0 e1))))
  else
    Done (set_dirty_cursor true (set_cursor_y (to_uint16 (cursor_y e + y)) e)).

(** ** Key dispatch: [qe_process_key] *)

Definition key (c : ascii) : Z := byte_of c.

(** The keys that scroll or move the cursor in Normal and in Insert mode;
    [hjkl] is accepted in Normal mode only. *)
Definition navigate (t : terminal) (hjkl : bool) (c : Z) (e : editor) : option outcome :=
  if (c =? PGDN) || (c =? CTRL (key "d")) then
    Some (qe_move_window_y (to_int32 (height t - 1)) e)
  else if (c =? PGUP) || (c =? CTRL (key "u")) then
    Some (qe_move_window_y (to_int32 (- (height t - 1))) e)
  else if (c =? ARROW_DOWN) || (hjkl && (c =? key "j")) then
    Some (qe_move_cursor_y t 1 e)
  else if (c =? ARROW_UP) || (hjkl && (c =? key "k")) then
    Some (qe_move_cursor_y t (-1) e)
  else if (c =? ARROW_LEFT) || (hjkl && (c =? key "h")) then
    Some (qe_move_cursor_x t (-1) e)
  else if (c =? ARROW_RIGHT) || (hjkl && (c =? key "l")) then
    Some (qe_move_cursor_x t 1 e)
  else if c =? CTRL (key "h") then
    Some (qe_move_window_x (to_int32 (Z.quot (- width t) 2)) e)
  else if c =? CTRL (key "l") then
    Some (qe_move_window_x (to_int32 (Z.quot (width t) 2)) e)
  else None.

Definition process_normal (t : terminal) (c : Z) (e : editor) : outcome :=
  if (c =? key "q") || (c =? CTRL (key "c")) then Exited e
  else if c =? key "i" then
    Done (if read_only e then e else set_mode MODE_INSERT e)
  else if c =? key "/" then
    Done (set_dirty true (set_search_len 0 (set_search_buf (<[0%nat := 0]> (search_buf e))
           (set_status_buffer (StatusSearch []) (set_mode MODE_SEARCH e)))))
  else if c =? key "r" then Done (set_dirty true e)
  else if c =? key "w" then Done (set_dirty true (set_wrap (negb (wrap e)) e))
  else match navigate t true c e with
       | Some o => o
       | None => Done e
       end.

(** The [default] case of Insert mode: overwrite the byte under the cursor
    ([msync] succeeds), then advance the cursor. *)
Definition insert_byte (t : terminal) (c : Z) (e : editor) : outcome :=
  match qe_get_cursor_byte_position e with
  | None => Crashed e
  | Some off =>
      match byte_store (page e) off c with
      | None => Crashed e
      | Some pg =>
          let e1 := set_page pg e in
          match byte_at pg (off + 1) with
          | None => Crashed e1
          | Some b =>
              bind
                (if b =? NL then
                   Done (set_dirty_cursor true
                          (set_cursor_y (to_uint16 (cursor_y e1 + 1))
                            (set_cursor_x 0 e1)))
                 else qe_move_cursor_x t 1 e1)
                (fun e2 => Done (set_dirty true e2))
          end
      end
  end.

Definition process_insert (t : terminal) (c : Z) (e : editor) : outcome :=
  if c =? CTRL (key "c") then Exited e
  else if c =? ESC then Done (set_mode MODE_NORMAL e)
  else match navigate t false c e with
       | Some o => o
       | None => insert_byte t c e
       end.

(** [while (addr > 0 && page[addr] != '\n') addr -= 1;  if (addr != 0) addr += 1;] *)
Fixpoint match_line_start (fuel : nat) (pg : list Z) (addr : Z) : scan :=
  match fuel with
  | O => Exhausted
  | S fuel' =>
      if addr >? 0 then
        match byte_at pg addr with
        | None => Fault addr
        | Some b =>
            if b =? NL then Land (addr + 1)
            else match_line_start fuel' pg (addr - 1)
        end
      else Land (if addr =? 0 then 0 else addr + 1)
  end.

(** [case ENTER] of Search mode. *)
Definition search_confirm (e : editor) : outcome :=
  let e1 := set_mode MODE_NORMAL e in
  match qe_get_cursor_byte_position e1 with
  | None => Crashed e1
  | Some off =>
      match qe_search e1 (off + 1) with
      | None => Crashed e1
      | Some actual_addr =>
          if actual_addr =? -1 then Done e1
          else
            match match_line_start (S (Z.to_nat actual_addr)) (page e1) actual_addr with
            | Land addr =>
                Done (set_dirty true
                       (set_page_offset_x (actual_addr - addr)
                         (set_page_offset addr e1)))
            | _ => Crashed e1
            end
      end
  end.

(** The C string held in a buffer, as [strncpy] copies it. *)
Fixpoint c_string (buf : list Z) : list Z :=
  match buf with
  | [] => []
  | b :: rest => if b =? 0 then [] else b :: c_string rest
  end.

(** One store into [search_buf]; an index outside [0, 64) is a write outside
    the array. *)
Definition store_search (idx v : Z) (e : editor) : outcome :=
  match byte_store (search_buf e) idx v with
  | None => Crashed e
  | Some sb => Done (set_search_buf sb e)
  end.

(** The [default] case of Search mode; [sizeof(editor.search_buf) - 1] is 63. *)
Definition search_type (c : Z) (e : editor) : outcome :=
  if search_len e >=? Z.of_nat (length (search_buf e)) - 1 then Done e
  else
    bind
      (if negb (c =? BACKSPACE) then
         bind (store_search (search_len e) c e) (fun e1 =>
         let e2 := set_search_len (to_size_t (search_len e1 + 1)) e1 in
         store_search (search_len e2) 0 e2)
       else
         let e1 := set_search_len (to_size_t (search_len e - 1)) e in
         let e2 := if search_len e1 =? 0 then set_search_len 0 e1 else e1 in
         store_search (search_len e2) 0 e2)
      (fun e3 =>
         Done (set_dirty true
                (set_status_buffer (StatusSearch (take 63 (c_string (search_buf e3)))) e3))).

Definition process_search (c : Z) (e : editor) : outcome :=
  if c =? CTRL (key "c") then Exited e
  else if c =? ESC then Done (set_mode MODE_NORMAL e)
  else if c =? ENTER then search_confirm e
  else search_type c e.

Definition qe_process_key (t : terminal) (c : Z) (e : editor) : outcome :=
  match mode e with
  | MODE_NORMAL => process_normal t c e
  | MODE_INSERT => process_insert t c e
  | MODE_SEARCH => process_search c e
  end.

Definition edit_mode_eqb (a b : edit_mode) : bool :=
  match a, b with
  | MODE_NORMAL, MODE_NORMAL | MODE_INSERT, MODE_INSERT | MODE_SEARCH, MODE_SEARCH => true
  | _, _ => false
  end.

(** One turn of the loop of [main] on key [c]: the key is processed, and the
    status line is refreshed when the mode changed to Normal or Insert. *)
Definition main_step (t : terminal) (c : Z) (e : editor) : outcome :=
  bind (qe_process_key t c e) (fun e1 =>
  if negb (edit_mode_eqb (mode e) (mode e1)) && negb (edit_mode_eqb (mode e1) MODE_SEARCH)
  then Done (set_dirty true (qe_update_status_buffer e1))
  else Done e1).

(** A run of the loop over a list of keys, stopping at the first exit or
    out-of-bounds access. *)
Fixpoint run_keys (t : terminal) (keys : list Z) (e : editor) : outcome :=
  match keys with
  | [] => Done e
  | c :: rest => bind (main_step t c e) (run_keys t rest)
  end.

(** ** Vocabulary of the properties *)

Definition is_newline (pg : list Z) (x : Z) : bool :=
  match byte_at pg x with Some b => b =? NL | None => false end.

Fixpoint count_newlines (pg : list Z) (a : Z) (n : nat) : Z :=
  match n with
  | O => 0
  | S n' => (if is_newline pg a then 1 else 0) + count_newlines pg (a + 1) n'
  end.

(** Number of newline bytes at the offsets [a <= x < b]. *)
Definition nl_count (pg : list Z) (a b : Z) : Z :=
  count_newlines pg a (Z.to_nat (b - a)).

(** [po] is 0 or one plus the offset of a newline byte. *)
Definition line_start_offset (pg : list Z) (po : Z) : Prop :=
  po = 0 \/ byte_at pg (po - 1) = Some NL.

(** Bytes still ahead of the scan of [qe_move_window_y]: the measure of its
    loop. *)
Definition bytes_ahead (pg : list Z) (step po : Z) : nat :=
  if step <? 0 then Z.to_nat (po + 1) else Z.to_nat (Z.of_nat (length pg) - po).


(** States reached from the initial state by vertical scrolling alone. *)
Inductive scrolled_from_top : editor -> Prop :=
| scrolled_init ro wr file : scrolled_from_top (qe_init ro wr file)
| scrolled_step e n e' :
    scrolled_from_top e -> qe_move_window_y n e = Done e' -> scrolled_from_top e'.


(** The keys that Insert mode does not write into the file. *)
Definition insert_mode_command (c : Z) : bool :=
  (c =? CTRL (key "c")) || (c =? ESC)
  || (c =? PGDN) || (c =? CTRL (key "d")) || (c =? PGUP) || (c =? CTRL (key "u"))
  || (c =? ARROW_DOWN) || (c =? ARROW_UP) || (c =? ARROW_LEFT) || (c =? ARROW_RIGHT)
  || (c =? CTRL (key "h")) || (c =? CTRL (key "l")).

(** ** What the specification says the cursor offset is

    Following the specification's words for [cursorByteOffset]: scan forward
    from [page_offset] past [cursor_y] newline bytes, landing one byte after
    each, then add [page_offset_x + cursor_x]; the result is [S - 1] when it
    reaches [S] or when fewer than [cursor_y] newlines remain. *)
Fixpoint spec_skip_lines (rows : nat) (pg : list Z) (offset : Z) : option Z :=
  match rows with
  | O => Some offset
  | S rows' =>
      match memchr pg offset NL (Z.of_nat (length pg) - offset) with
      | None => None
      | Some s => spec_skip_lines rows' pg (s + 1)
      end
  end.

Definition spec_cursorByteOffset (e : editor) : Z :=
  match spec_skip_lines (Z.to_nat (cursor_y e)) (page e) (page_offset e) with
  | None => st_size e - 1
  | Some offset =>
      let offset := offset + (page_offset_x e + cursor_x e) in
      if offset >=? st_size e then st_size e - 1 else offset
  end.

(** ** Scenario data *)

(** The scenario buffer ["abcdefghij\nklmno\n"], 17 bytes. *)
Definition two_lines : list Z :=
  bytes_of "abcdefghij" ++ [NL] ++ bytes_of "klmno" ++ [NL].

(** ["ab\ncd\nef\n"] *)
Definition three_lines : list Z :=
  bytes_of "ab" ++ [NL] ++ bytes_of "cd" ++ [NL] ++ bytes_of "ef" ++ [NL].

(** ["a\na\na\na\na\n"] *)
Definition five_lines : list Z :=
  bytes_of "a" ++ [NL] ++ bytes_of "a" ++ [NL] ++ bytes_of "a" ++ [NL]
  ++ bytes_of "a" ++ [NL] ++ bytes_of "a" ++ [NL].

(** The 5-row, 10-column viewport of the scenarios. *)
Definition term_5x10 : terminal := mkTerminal 10 5.

(** An editor in Normal mode whose search buffer holds [pat]. *)
Definition with_pattern (pat : list Z) (e : editor) : editor :=
  set_search_len (Z.of_nat (length pat))
    (set_search_buf (pat ++ replicate (64 - length pat) 0) e).


(** ["ab\ncd\nef\ngh"]: the last line has no newline. *)
Definition open_ended : list Z :=
  bytes_of "ab" ++ [NL] ++ bytes_of "cd" ++ [NL] ++ bytes_of "ef" ++ [NL]
  ++ bytes_of "gh".


(** ["\nab\ncd\nef\n"]: the file begins with a newline. *)
Definition leading_newline : list Z :=
  [NL] ++ bytes_of "ab" ++ [NL] ++ bytes_of "cd" ++ [NL] ++ bytes_of "ef" ++ [NL].

(** ["ab\ncd\nef\ngh\n"] *)
Definition plain_lines : list Z :=
  bytes_of "ab" ++ [NL] ++ bytes_of "cd" ++ [NL] ++ bytes_of "ef" ++ [NL]
  ++ bytes_of "gh" ++ [NL].

(** The state after [j] and [k] presses of [l] on the scenario buffer: the
    cursor on the second line ["klmno"], no-wrap layout. *)
Definition on_second_row (k : nat) : outcome :=
  run_keys term_5x10 (key "j" :: replicate k (key "l")) (qe_init false false two_lines).

(** * The rest of the program

    The routines around the navigation engine, embedded in the same style:
    the scan of the first version ([qe_scan_past_newlines]), the input
    decoder ([qe_readkey]) over the results of its reads, the two layouts of
    the renderer as the rows of cells they paint, the status line, the
    command line, and the generator of the test files ([gen.c]). *)

(** ** v0.1.0: [qe_scan_past_newlines] *)

(** The loop of the first version: on the counted newline it stops where it
    is, so [page_offset] rests on a newline byte. *)
Fixpoint scan_past_newlines (fuel : nat) (pg : list Z) (step an i po : Z) : scan :=
  match fuel with
  | O => Exhausted
  | S fuel' =>
      if po <? 0 then Clamp 0
      else if po >=? Z.of_nat (length pg) then Clamp (Z.of_nat (length pg) - 1)
      else match byte_at pg po with
           | None => Fault po
           | Some b =>
               if b =? NL then
                 let i' := to_int32 (i + 1) in
                 if i' >? an then Land po
                 else scan_past_newlines fuel' pg step an i' (po + step)
               else scan_past_newlines fuel' pg step an i (po + step)
           end
  end.

Definition qe_scan_past_newlines (pg : list Z) (n po : Z) : scan :=
  scan_past_newlines (S (length pg)) pg (scroll_step n) (scroll_count n) 0 po.

(** ** Input decoder: [qe_readkey] *)

(** What one [read(STDIN_FILENO, &c, 1)] returns: a byte (1), nothing within
    the terminal's timeout (0), [-1] with [EINTR], or [-1] with another error. *)
Inductive read_result : Type :=
| ReadByte (b : Z)
| ReadNone
| ReadSignal
| ReadError.

(** [qe_readkey] returns a key code or ends the process through [fatal]. *)
Inductive key_result : Type :=
| KeyCode (c : Z)
| KeyFatal.

(** A [char] returned as [int]: [char] is signed on x86 and unsigned on ARM. *)
Definition char_to_int (signed_char : bool) (b : Z) : Z :=
  if signed_char && (128 <=? b) then b - 256 else b.

(** One look-ahead read, [read(...) != 1] being [None]; a trace that has ended
    delivers nothing more. *)
Definition lookahead (input : list read_result) : option Z * list read_result :=
  match input with
  | ReadByte b :: rest => (Some b, rest)
  | _ :: rest => (None, rest)
  | [] => (None, [])
  end.

(** [ESC [ <digit> ~] *)
Definition csi_tilde (c2 : Z) : Z :=
  if (c2 =? key "1") || (c2 =? key "7") then HOME
  else if (c2 =? key "4") || (c2 =? key "8") then END_
  else if c2 =? key "3" then DEL
  else if c2 =? key "5" then PGUP
  else if c2 =? key "6" then PGDN
  else ESC.

(** [ESC [ <letter>] *)
Definition csi_letter (c2 : Z) : Z :=
  if c2 =? key "A" then ARROW_UP
  else if c2 =? key "B" then ARROW_DOWN
  else if c2 =? key "C" then ARROW_RIGHT
  else if c2 =? key "D" then ARROW_LEFT
  else if c2 =? key "H" then HOME
  else if c2 =? key "F" then END_
  else ESC.

(** [ESC O <letter>] *)
Definition ss3_letter (c2 : Z) : Z :=
  if c2 =? key "H" then HOME
  else if c2 =? key "F" then END_
  else ESC.

(** The branch of [qe_readkey] after an escape byte. *)
Definition decode_escape (input : list read_result) : Z * list read_result :=
  match lookahead input with
  | (None, rest1) => (ESC, rest1)
  | (Some c1, rest1) =>
      match lookahead rest1 with
      | (None, rest2) => (ESC, rest2)
      | (Some c2, rest2) =>
          if c1 =? key "[" then
            if (key "0" <=? c2) && (c2 <=? key "9") then
              match lookahead rest2 with
              | (None, rest3) => (ESC, rest3)
              | (Some c3, rest3) =>
                  (if c3 =? key "~" then csi_tilde c2 else ESC, rest3)
              end
            else (csi_letter c2, rest2)
          else if c1 =? key "O" then (ss3_letter c2, rest2)
          else (ESC, rest2)
      end
  end.

(** [qe_readkey] over the results of the reads it makes; [None] when the
    trace ends while it still waits for the first byte. *)
Fixpoint qe_readkey (signed_char : bool) (input : list read_result)
  : option (key_result * list read_result) :=
  match input with
  | [] => None
  | ReadNone :: rest => qe_readkey signed_char rest
  | ReadSignal :: rest => Some (KeyCode 0, rest)
  | ReadError :: rest => Some (KeyFatal, rest)
  | ReadByte b :: rest =>
      if b =? ESC then
        let (k, rest') := decode_escape rest in Some (KeyCode k, rest')
      else Some (KeyCode (char_to_int signed_char b), rest)
  end.

Definition special_key (k : Z) : Prop := HOME <= k <= ARROW_LEFT.

Definition read_is_byte (r : read_result) : Prop :=
  match r with ReadByte b => 0 <= b < 256 | _ => True end.

(** ** Rendering: [print_char], [qe_draw_wrap], [qe_draw_nowrap], [qe_draw] *)

(** What [print_char] puts on the screen: the byte itself, or a dim ['@']. *)
Inductive cell : Type :=
| Glyph (b : Z)
| Dimmed.

(** [isprint] in the C locale (the program never calls [setlocale]). *)
Definition isprint (b : Z) : bool := (32 <=? b) && (b <=? 126).

Definition print_char (b : Z) : cell := if isprint b then Glyph b else Dimmed.

(** How the loop over the columns of one row is left. *)
Inductive row_end : Type :=
| RowFull (offset : Z)      (* the [for] loop over [x] ran to its end *)
| RowNewline (offset : Z)   (* [goto next_row] *)
| RowFileEnd                (* [goto file_end] *)
| RowBadRead.               (* a read outside the mapping *)

(** The loop over [x], shared by both layouts:
    [c = page[offset]; offset += 1; if (offset >= st_size) goto file_end;
     if (c == '\n') goto next_row; else print_char(c);] *)
Fixpoint draw_cells (cols : nat) (pg : list Z) (offset : Z) : list cell * row_end :=
  match cols with
  | O => ([], RowFull offset)
  | S cols' =>
      match byte_at pg offset with
      | None => ([], RowBadRead)
      | Some c =>
          if offset + 1 >=? Z.of_nat (length pg) then ([], RowFileEnd)
          else if c =? NL then ([], RowNewline (offset + 1))
          else let (cells, e) := draw_cells cols' pg (offset + 1) in
               (print_char c :: cells, e)
      end
  end.

(** The rows painted (each one ended by the escape sequence that moves to the
    next line), the row count [y] returned, and whether every read was inside
    the mapping. *)
Record drawn : Type := mkDrawn {
  painted : list (list cell);
  last_row : Z;
  in_bounds : bool
}.

Fixpoint draw_wrap_rows (n cols : nat) (pg : list Z) (offset y : Z) : drawn :=
  match n with
  | O => mkDrawn [] y true
  | S n' =>
      let (cells, e) := draw_cells cols pg offset in
      match e with
      | RowFull o | RowNewline o =>
          let d := draw_wrap_rows n' cols pg o (y + 1) in
          mkDrawn (cells :: painted d) (last_row d) (in_bounds d)
      | RowFileEnd => mkDrawn [cells] y true
      | RowBadRead => mkDrawn [cells] y false
      end
  end.

Definition qe_draw_wrap (t : terminal) (e : editor) : drawn :=
  draw_wrap_rows (Z.to_nat (height t - 1)) (Z.to_nat (width t - 1))
    (page e) (page_offset e) 0.

(** One row of the no-wrap layout from [offset]: skip [pox] bytes of the line,
    paint up to [cols] bytes, then skip to the next newline.  After the skip
    the code keeps [end - &page[offset]], the distance to the newline.  As for
    [skip_rows], a [memchr] handed a range outside the mapping is a bad read.
    A negative [pox] is, as the [size_t] count of the first [memchr], longer
    than any file: the scan stops at the first newline from [offset] on, and
    runs past the mapping when there is none. *)
Definition nowrap_row (cols : nat) (pg : list Z) (pox offset : Z) : list cell * row_end :=
  if offset + pox >=? Z.of_nat (length pg) then ([], RowFileEnd)
  else if pox <? 0 then
    let cnt := Z.of_nat (length pg) - offset in
    if range_ok pg offset cnt then
      match memchr pg offset NL cnt with
      | Some _ => ([], RowNewline offset)
      | None => ([], RowBadRead)
      end
    else ([], RowBadRead)
  else if range_ok pg offset pox then
    match memchr pg offset NL pox with
    | Some _ => ([], RowNewline offset)
    | None =>
        let (cells, e) := draw_cells cols pg (offset + pox) in
        match e with
        | RowFull o =>
            let cnt := Z.of_nat (length pg) - o in
            if range_ok pg o cnt then
              match memchr pg o NL cnt with
              | None => (cells, RowFileEnd)
              | Some s => (cells, RowNewline (s - o))
              end
            else (cells, RowBadRead)
        | _ => (cells, e)
        end
    end
  else ([], RowBadRead).

Fixpoint draw_nowrap_rows (n cols : nat) (pg : list Z) (pox offset y : Z) : drawn :=
  match n with
  | O => mkDrawn [] y true
  | S n' =>
      let (cells, e) := nowrap_row cols pg pox offset in
      match e with
      | RowFull o | RowNewline o =>
          let d := draw_nowrap_rows n' cols pg pox o (y + 1) in
          mkDrawn (cells :: painted d) (last_row d) (in_bounds d)
      | RowFileEnd => mkDrawn [cells] y true
      | RowBadRead => mkDrawn [cells] y false
      end
  end.

Definition qe_draw_nowrap (t : terminal) (e : editor) : drawn :=
  draw_nowrap_rows (Z.to_nat (height t - 1)) (Z.to_nat (width t))
    (page e) (page_offset_x e) (page_offset e) 0.

(** [qe_draw_cursor]: the 1-based screen position of the cursor. *)
Definition qe_draw_cursor (e : editor) : Z * Z := (cursor_y e + 1, cursor_x e + 1).

(** One full redraw: the content rows, the number of end-of-file marker rows
    that follow them, and the cursor position.  The status line painted
    between them is [qe_draw_status], modelled below on the bytes of
    [status_buffer]; the flag [dirty_status] it clears is read nowhere. *)
Record frame : Type := mkFrame {
  content : drawn;
  markers : nat;
  cursor_at : Z * Z
}.

Definition qe_draw (t : terminal) (e : editor) : frame * editor :=
  let d := if wrap e then qe_draw_wrap t e else qe_draw_nowrap t e in
  (mkFrame d (Z.to_nat (height t - 1 - last_row d)) (qe_draw_cursor e),
   set_dirty false (set_dirty_cursor false e)).

(** Lines of the frame above the status line: painted rows and marker rows. *)
Definition frame_lines (f : frame) : nat := (length (painted (content f)) + markers f)%nat.

(** The glyphs for the [k] bytes from [offset], newlines left out. *)
Definition shown (pg : list Z) (offset k : Z) : list cell :=
  map print_char (List.filter (fun b => negb (b =? NL)) (mem_range pg offset k)).

(** *** Row counts, whatever is read *)

Definition row_count_ok (n : nat) (y : Z) (d : drawn) : Prop :=
  length (painted d) = n /\ last_row d = y + Z.of_nat n \/
  (1 <= length (painted d) <= n)%nat /\ last_row d = y + Z.of_nat (length (painted d)) - 1.

(** ** Status line: [qe_draw_status] *)

(** The loop of [qe_draw_status] from column [i]: every column reads
    [status_buffer[i]]; [None] is a read outside the buffer. *)
Fixpoint status_cells (n : nat) (buf : list Z) (i : Z) (at_end : bool) : option (list Z) :=
  match n with
  | O => Some []
  | S n' =>
      match byte_at buf i with
      | None => None
      | Some b =>
          let at_end := at_end || (b =? 0) in
          match status_cells n' buf (i + 1) at_end with
          | None => None
          | Some cells => Some ((if at_end then key " " else b) :: cells)
          end
      end
  end.

Definition qe_draw_status (t : terminal) (buf : list Z) : option (list Z) :=
  status_cells (Z.to_nat (width t)) buf 0 false.

(** ** Command line: [qe_args] *)

(** The fields of [editor] that [qe_args] sets. *)
Record options : Type := mkOptions {
  opt_read_only : bool;
  opt_batched_save : bool;
  opt_wrap : bool;
  opt_filename : option string
}.

(** The calls of [fatal]: the usage text, ["unknown argument"],
    ["only one filename is allowed"]. *)
Inductive args_error : Type :=
| UsageShown
| UnknownArgument
| TwoFilenames.

(** [a[0] == '-'] *)
Definition is_option (a : string) : bool :=
  match a with
  | String c _ => Ascii.eqb c "-"
  | EmptyString => false
  end.

(** The body of the loop for one argument. *)
Definition arg_step (a : string) (o : options) : options + args_error :=
  if is_option a then
    if String.eqb a "-ro" then
      inl (mkOptions true (opt_batched_save o) (opt_wrap o) (opt_filename o))
    else if String.eqb a "-s" then
      inl (mkOptions (opt_read_only o) true (opt_wrap o) (opt_filename o))
    else if String.eqb a "-w" then
      inl (mkOptions (opt_read_only o) (opt_batched_save o) true (opt_filename o))
    else if String.eqb a "-h" then inr UsageShown
    else inr UnknownArgument
  else
    match opt_filename o with
    | Some _ => inr TwoFilenames
    | None =>
        inl (mkOptions (opt_read_only o) (opt_batched_save o) (opt_wrap o) (Some a))
    end.

Fixpoint parse_args (args : list string) (o : options) : options + args_error :=
  match args with
  | [] => inl o
  | a :: rest =>
      match arg_step a o with
      | inl o' => parse_args rest o'
      | inr err => inr err
      end
  end.

(** [qe_args] on [argv[1..]], from the zeroed editor of [qe_init]. *)
Definition qe_args (args : list string) : options + args_error :=
  match parse_args args (mkOptions false false false None) with
  | inl o =>
      match opt_filename o with
      | None => inr UsageShown
      | Some _ => inl o
      end
  | inr err => inr err
  end.

(** The editor that [main] starts with after [qe_args] and [qe_open]. *)
Definition editor_of_options (o : options) (file : list Z) : editor :=
  qe_init (opt_read_only o) (opt_wrap o) file.

(** An argument that [qe_args] accepts: not an option, or one of the three
    flags. *)
Definition known_argument (a : string) : Prop :=
  is_option a = true -> a = "-ro"%string \/ a = "-s"%string \/ a = "-w"%string.

(** The arguments that do not begin with ['-']. *)
Definition filenames (args : list string) : list string :=
  filter (fun a => is_option a = false) args.

(** ** The test-file generator *)

Definition to_uint32 : Z -> Z := wrap_u 32.

(** [static uint32_t s = 0xDEADBEEF;] *)
Definition seed : Z := 3735928559.

(** The three steps of [next] on its [uint32_t] state:
    [s ^= s << 13; s ^= s >> 17; s ^= s << 5;] *)
Definition xorshift32 (s : Z) : Z :=
  let s := Z.lxor s (to_uint32 (Z.shiftl s 13)) in
  let s := Z.lxor s (Z.shiftr s 17) in
  Z.lxor s (to_uint32 (Z.shiftl s 5)).

(** [next]: the byte returned and the new state. *)
Definition next (s : Z) : Z * Z :=
  let s' := xorshift32 s in (to_uint8 s', s').

(** [#define next_printable() ((next() & 63) + 33)] *)
Definition next_printable (s : Z) : Z * Z :=
  let (b, s') := next s in (Z.land b 63 + 33, s').

(** [n] calls of [next_printable] filling a buffer. *)
Fixpoint printable_run (n : nat) (s : Z) : list Z * Z :=
  match n with
  | O => ([], s)
  | S n' =>
      let (b, s1) := next_printable s in
      let (l, s2) := printable_run n' s1 in
      (b :: l, s2)
  end.

(** The loop [for (i = 0; i < limit; i += 80)] of [create_large_text]: 79
    printable bytes and a newline per block. *)
Fixpoint large_text_blocks (fuel : nat) (limit i s : Z) : list Z * Z :=
  match fuel with
  | O => ([], s)
  | S fuel' =>
      if i <? limit then
        let (l, s1) := printable_run 79 s in
        let (rest, s2) := large_text_blocks fuel' limit (to_int32 (i + 80)) s1 in
        (l ++ [NL] ++ rest, s2)
      else ([], s)
  end.

(** [create_large_text], with the loop's limit ([1 * GiB] in the source) and
    the generator's state as arguments. *)
Definition create_large_text (limit s : Z) : list Z * Z :=
  large_text_blocks (S (Z.to_nat limit)) limit 0 s.

(** The loop of [create_very_long_line]: 80 printable bytes per block. *)
Fixpoint long_line_blocks (fuel : nat) (limit i s : Z) : list Z * Z :=
  match fuel with
  | O => ([], s)
  | S fuel' =>
      if i <? limit then
        let (l, s1) := printable_run 80 s in
        let (rest, s2) := long_line_blocks fuel' limit (to_int32 (i + 80)) s1 in
        (l ++ rest, s2)
      else ([], s)
  end.

(** [create_very_long_line]; the limit is [100 * MiB] in the source. *)
Definition create_very_long_line (limit s : Z) : list Z * Z :=
  long_line_blocks (S (Z.to_nat limit)) limit 0 s.

(** The values [next_printable] can take. *)
Definition printable_byte (b : Z) : Prop := 33 <= b <= 96.

(** ** Vocabulary of the further properties *)

(** Navigation leaves the file, the flags, the mode and the pattern alone. *)
Definition keeps_session (e e' : editor) : Prop :=
  page e' = page e /\ read_only e' = read_only e /\ mode e' = mode e /\
  search_buf e' = search_buf e /\ search_len e' = search_len e.

(** A 26-byte file without a newline. *)
Definition one_long_line : list Z := bytes_of "abcdefghijklmnopqrstuvwxyz".

(** ["abcdefgh\nc\ngh\n"]: the third line is shorter than the first. *)
Definition short_lines : list Z :=
  bytes_of "abcdefgh" ++ [NL] ++ bytes_of "c" ++ [NL] ++ bytes_of "gh" ++ [NL].

(** The keys that search for a newline followed by ['c'], go back to the top
    of the file and enter Insert mode. *)
Definition search_then_insert : list Z :=
  [key "/"; CTRL (key "j"); key "c"; ENTER;
   key "k"; key "k"; key "k"; key "k"; key "i"].

(** * Properties *)

(** ** Machine integers and memory *)

Lemma gtb_true a b : b < a -> (a >? b) = true.
Proof. intros H. destruct (Z.gtb_spec a b); [reflexivity | lia]. Qed.

Lemma gtb_false a b : a <= b -> (a >? b) = false.
Proof. intros H. destruct (Z.gtb_spec a b); [lia | reflexivity]. Qed.

Lemma to_int32_small z : - 2 ^ 31 <= z < 2 ^ 31 -> to_int32 z = z.
Proof.
  intros H. unfold to_int32, wrap_s.
  change (2 ^ (32 - 1)) with (2 ^ 31). change (2 ^ 32) with (2 * 2 ^ 31).
  rewrite Z.mod_small by lia. lia.
Qed.


Lemma to_size_t_succ off :
  -1 <= off < 2 ^ 64 - 1 -> to_size_t (to_size_t off + 1) = off + 1.
Proof.
  intros H. unfold to_size_t, wrap_u.
  rewrite Zplus_mod_idemp_l. apply Z.mod_small. lia.
Qed.

Lemma byte_at_Some buf off b :
  byte_at buf off = Some b -> 0 <= off < Z.of_nat (length buf).
Proof.
  unfold byte_at. destruct (off <? 0) eqn:H; [discriminate|].
  apply Z.ltb_ge in H. intros Hl. apply lookup_lt_Some in Hl. lia.
Qed.

(** ** Newlines between two offsets *)

Section Counting.
Variable pg : list Z.

Lemma count_newlines_nonneg n : forall a, 0 <= count_newlines pg a n.
Proof. induction n as [|n IH]; intros a; simpl; [lia|]. specialize (IH (a + 1)). destruct (is_newline pg a); lia. Qed.

Lemma count_newlines_app n m : forall a,
  count_newlines pg a (n + m) =
  count_newlines pg a n + count_newlines pg (a + Z.of_nat n) m.
Proof.
  induction n as [|n IH]; intros a.
  - simpl. rewrite Z.add_0_r. reflexivity.
  - cbn [count_newlines Nat.add]. rewrite IH.
    replace (a + 1 + Z.of_nat n) with (a + Z.of_nat (S n)) by lia. lia.
Qed.

Lemma nl_count_empty a b : b <= a -> nl_count pg a b = 0.
Proof. intros H. unfold nl_count. replace (Z.to_nat (b - a)) with O by lia. reflexivity. Qed.

Lemma nl_count_nonneg a b : 0 <= nl_count pg a b.
Proof. apply count_newlines_nonneg. Qed.

Lemma nl_count_split a b c :
  a <= b <= c -> nl_count pg a c = nl_count pg a b + nl_count pg b c.
Proof.
  intros H. unfold nl_count.
  replace (Z.to_nat (c - a)) with (Z.to_nat (b - a) + Z.to_nat (c - b))%nat by lia.
  rewrite count_newlines_app. do 2 f_equal. lia.
Qed.

Lemma nl_count_one a :
  nl_count pg a (a + 1) = if is_newline pg a then 1 else 0.
Proof.
  unfold nl_count. replace (Z.to_nat (a + 1 - a)) with 1%nat by lia.
  simpl. lia.
Qed.

Lemma nl_count_first a b :
  a < b -> nl_count pg a b = (if is_newline pg a then 1 else 0) + nl_count pg (a + 1) b.
Proof. intros H. rewrite (nl_count_split a (a + 1) b) by lia. rewrite nl_count_one. reflexivity. Qed.

Lemma nl_count_last a b :
  a <= b -> nl_count pg a (b + 1) = nl_count pg a b + (if is_newline pg b then 1 else 0).
Proof. intros H. rewrite (nl_count_split a b (b + 1)) by lia. rewrite nl_count_one. reflexivity. Qed.



Lemma is_newline_byte x : is_newline pg x = true <-> byte_at pg x = Some NL.
Proof.
  unfold is_newline. destruct (byte_at pg x) as [b|]; [|split; discriminate].
  rewrite Z.eqb_eq. split; [intros ->; reflexivity | intros [= ->]; reflexivity].
Qed.
End Counting.

(** ** The scan of [qe_move_window_y] *)

Section Scrolling.
Variable pg : list Z.

Lemma byte_not_newline x b :
  byte_at pg x = Some b -> (b =? NL) = false -> is_newline pg x = false.
Proof. unfold is_newline. intros -> H. exact H. Qed.

Lemma byte_newline x b :
  byte_at pg x = Some b -> (b =? NL) = true -> byte_at pg x = Some NL.
Proof. intros H Hb. apply Z.eqb_eq in Hb. congruence. Qed.

Lemma line_start_land : forall fuel po q,
  line_start fuel pg po = Land q ->
  (q = 0 /\ 0 <= po /\ forall x, 1 <= x <= po -> is_newline pg x = false) \/
  (1 <= q - 1 <= po /\ byte_at pg (q - 1) = Some NL /\
   forall x, q <= x <= po -> is_newline pg x = false).
Proof.
  induction fuel as [|fuel IH]; intros po q; simpl; [discriminate|].
  destruct (Z.eqb_spec po 0) as [->|Hne].
  - intros [= <-]. left. repeat split; [lia | intros; lia].
  - destruct (byte_at pg po) as [b|] eqn:Hb; [|discriminate].
    pose proof (byte_at_Some _ _ _ Hb) as Hr.
    destruct (b =? NL) eqn:Hnl.
    + intros [= <-]. right. replace (po + 1 - 1) with po by lia.
      repeat split; [lia | lia | eapply byte_newline; eassumption | intros; lia].
    + intros H. apply IH in H as [(-> & Hpo & Hno)|(Hq & Hat & Hno)].
      * left. repeat split; [lia|]. intros x Hx.
        destruct (Z.eq_dec x po) as [->|]; [eapply byte_not_newline; eassumption|].
        apply Hno. lia.
      * right. repeat split; [lia | lia | assumption |]. intros x Hx.
        destruct (Z.eq_dec x po) as [->|]; [eapply byte_not_newline; eassumption|].
        apply Hno. lia.
Qed.

Lemma line_start_total : forall fuel po,
  (Z.to_nat po < fuel)%nat -> line_start fuel pg po <> Exhausted.
Proof.
  induction fuel as [|fuel IH]; intros po Hf; simpl; [lia|].
  destruct (Z.eqb_spec po 0) as [->|Hne]; [discriminate|].
  destruct (byte_at pg po) as [b|] eqn:Hb; [|discriminate].
  apply byte_at_Some in Hb.
  destruct (b =? NL); [discriminate|]. apply IH. lia.
Qed.

Lemma line_start_never_clamps : forall fuel po q,
  line_start fuel pg po <> Clamp q.
Proof.
  induction fuel as [|fuel IH]; intros po q; simpl; [discriminate|].
  destruct (po =? 0); [discriminate|].
  destruct (byte_at pg po); [|discriminate].
  destruct (_ =? NL); [discriminate | apply IH].
Qed.

Lemma line_start_offset_of_land fuel po q :
  line_start fuel pg po = Land q -> line_start_offset pg q.
Proof.
  intros H. apply line_start_land in H as [(-> & _)|(_ & Hat & _)];
    [left; reflexivity | right; assumption].
Qed.

(** *** The main loop *)

Lemma scan_newlines_land_line_start : forall fuel step an i po q,
  step = 1 \/ step = -1 ->
  scan_newlines fuel pg step an i po = Land q -> line_start_offset pg q.
Proof.
  induction fuel as [|fuel IH]; intros step an i po q Hstep;
    cbn [scan_newlines]; [discriminate|].
  destruct (po <? 0); [discriminate|].
  destruct (po >=? _); [discriminate|].
  destruct (byte_at pg po) as [b|] eqn:Hb; [|discriminate].
  destruct (b =? NL) eqn:Hnl; [|apply IH; assumption].
  destruct (_ >? an); [|apply IH; assumption].
  destruct Hstep as [-> | ->]; cbn [Z.ltb Z.compare].
  - intros [= <-]. right. replace (po + 1 - 1) with po by lia.
    eapply byte_newline; eassumption.
  - apply line_start_offset_of_land.
Qed.

Lemma scan_newlines_clamp : forall fuel step an i po q,
  scan_newlines fuel pg step an i po = Clamp q ->
  q = 0 \/ q = Z.of_nat (length pg) - 1.
Proof.
  induction fuel as [|fuel IH]; intros step an i po q;
    cbn [scan_newlines]; [discriminate|].
  destruct (po <? 0); [intros [= <-]; left; reflexivity|].
  destruct (po >=? _); [intros [= <-]; right; reflexivity|].
  destruct (byte_at pg po) as [b|] eqn:Hb; [|discriminate].
  destruct (b =? NL) eqn:Hnl; [|apply IH].
  destruct (_ >? an); [|apply IH].
  destruct (step <? 0); [|discriminate].
  intros H. exfalso. eapply line_start_never_clamps. eassumption.
Qed.

Lemma scan_newlines_total : forall fuel step an i po,
  step = 1 \/ step = -1 ->
  (bytes_ahead pg step po < fuel)%nat ->
  scan_newlines fuel pg step an i po <> Exhausted.
Proof.
  induction fuel as [|fuel IH]; intros step an i po Hstep Hf;
    cbn [scan_newlines]; [lia|].
  destruct (Z.ltb_spec po 0); [discriminate|].
  destruct (Z.geb_spec po (Z.of_nat (length pg))); [discriminate|].
  assert (Hnext : (bytes_ahead pg step (po + step) < fuel)%nat).
  { unfold bytes_ahead in *. destruct Hstep as [-> | ->]; cbn [Z.ltb Z.compare] in *; lia. }
  destruct (byte_at pg po) as [b|] eqn:Hb; [|discriminate].
  destruct (b =? NL) eqn:Hnl; [|apply IH; assumption].
  destruct (_ >? an); [|apply IH; assumption].
  destruct (step <? 0); [|discriminate].
  apply line_start_total. lia.
Qed.

Lemma scroll_scan_total n po : scroll_scan pg n po <> Exhausted.
Proof.
  unfold scroll_scan.
  destruct (Z.ltb_spec po 0) as [Hneg|Hpos].
  { cbn [scan_newlines]. replace (po <? 0) with true by (symmetry; apply Z.ltb_lt; lia). discriminate. }
  destruct (Z.geb_spec po (Z.of_nat (length pg))) as [Hbig|Hin].
  { cbn [scan_newlines]. replace (po <? 0) with false by (symmetry; apply Z.ltb_ge; lia).
    replace (po >=? _) with true by (symmetry; apply Z.geb_le; lia). discriminate. }
  apply scan_newlines_total.
  - unfold scroll_step. destruct (n >? 0); auto.
  - unfold bytes_ahead, scroll_step. destruct (n >? 0); cbn [Z.ltb Z.compare]; lia.
Qed.


(** *** Counting the newlines a landing scan has passed *)

Lemma scan_forward_land : forall fuel an i po q,
  0 <= i <= an -> an < INT32_MAX ->
  scan_newlines fuel pg 1 an i po = Land q ->
  0 <= po < q /\ q <= Z.of_nat (length pg) /\
  byte_at pg (q - 1) = Some NL /\
  i + nl_count pg po (q - 1) = an.
Proof.
  unfold INT32_MAX.
  induction fuel as [|fuel IH]; intros an i po q Hi Han;
    cbn [scan_newlines]; [discriminate|].
  destruct (Z.ltb_spec po 0); [discriminate|].
  destruct (Z.geb_spec po (Z.of_nat (length pg))); [discriminate|].
  destruct (byte_at pg po) as [b|] eqn:Hb; [|discriminate].
  destruct (b =? NL) eqn:Hnl.
  - rewrite to_int32_small by lia.
    destruct (Z.gtb_spec (i + 1) an).
    + cbn [Z.ltb Z.compare]. intros [= <-]. replace (po + 1 - 1) with po by lia.
      rewrite nl_count_empty by lia.
      repeat split; [lia | lia | lia | eapply byte_newline; eassumption | lia].
    + intros Hscan. apply IH in Hscan as (Hq & Hlen & Hat & Hcnt); [|lia..].
      rewrite (nl_count_first pg po (q - 1)) by lia.
      replace (is_newline pg po) with true
        by (symmetry; apply is_newline_byte; eapply byte_newline; eassumption).
      repeat split; [lia | lia | lia | assumption | lia].
  - intros Hscan. apply IH in Hscan as (Hq & Hlen & Hat & Hcnt); [|lia..].
    assert (po < q - 1).
    { destruct (Z.eq_dec po (q - 1)) as [->|]; [|lia].
      rewrite Hb in Hat. injection Hat as ->. discriminate. }
    rewrite (nl_count_first pg po (q - 1)) by lia.
    rewrite (byte_not_newline po b) by assumption.
    repeat split; [lia | lia | lia | assumption | lia].
Qed.



Lemma nl_count_first_newline a b :
  a < b -> byte_at pg a = Some NL -> nl_count pg a b = 1 + nl_count pg (a + 1) b.
Proof.
  intros H Ha. rewrite nl_count_first by lia.
  apply is_newline_byte in Ha. rewrite Ha. reflexivity.
Qed.

(** A forward scroll by [n] passes [n + 1] newlines. *)
Lemma scroll_forward_passes n po q :
  0 < n < INT32_MAX ->
  scroll_scan pg n po = Land q ->
  byte_at pg (q - 1) = Some NL /\ nl_count pg po q = n + 1.
Proof.
  intros Hn Hscan. unfold scroll_scan, scroll_step, scroll_count in Hscan.
  rewrite gtb_true in Hscan by lia.
  apply scan_forward_land in Hscan as (Hrange & Hlen & Hq1 & Hcnt); [|lia..].
  split; [assumption|].
  replace q with (q - 1 + 1) at 1 by lia. rewrite nl_count_last by lia.
  replace (is_newline pg (q - 1)) with true
    by (symmetry; apply is_newline_byte; assumption).
  lia.
Qed.


End Scrolling.

(** ** Vertical scrolling of the editor *)

Lemma move_window_y_done n e e' :
  qe_move_window_y n e = Done e' ->
  page e' = page e /\
  (scroll_scan (page e) n (page_offset e) = Clamp (page_offset e') \/
   scroll_scan (page e) n (page_offset e) = Land (page_offset e')).
Proof.
  unfold qe_move_window_y. destruct (scroll_scan _ _ _) as [po|po|po|];
    intros [= <-]; split; auto.
Qed.

(** The fuel of [scroll_scan] is never used up: [qe_move_window_y] crashes
    only on a read outside the file (the byte before offset 0, in the
    backward branch). *)
Lemma move_window_y_crash n e e' :
  qe_move_window_y n e = Crashed e' ->
  exists po, scroll_scan (page e) n (page_offset e) = Fault po.
Proof.
  unfold qe_move_window_y. pose proof (scroll_scan_total (page e) n (page_offset e)).
  destruct (scroll_scan _ _ _) as [po|po|po|]; try discriminate; [eauto | contradiction].
Qed.

(** C1 (the code differs): on the 17-byte buffer ["abcdefghij\nklmno\n"],
    [qe_move_window_y 1] from [page_offset = 0] does not stop at offset 11
    (the byte ['k']): the counter test [++i > an] lets the scan pass two
    newlines and leaves [page_offset = 17], the size of the file. *)
Theorem scroll_one_line_lands_two_lines_down :
  let e := qe_init false false two_lines in
  st_size e = 17 /\
  byte_at two_lines 11 = Some (key "k") /\
  exists e', qe_move_window_y 1 e = Done e' /\ page_offset e' = 17.
Proof.
  cbv zeta. split; [reflexivity|]. split; [reflexivity|].
  eexists. split; [vm_compute; reflexivity | reflexivity].
Qed.

(** C3 (as amended): in every state reached from the initial state by
    vertical scrolling alone, [page_offset] is 0, or one plus the offset of a
    newline byte, or [S - 1], the offset at which a scan that runs off the end
    of the file is clamped. *)
Theorem page_offset_after_scrolling e :
  scrolled_from_top e ->
  page_offset e = 0 \/
  (exists k, byte_at (page e) k = Some NL /\ page_offset e = k + 1) \/
  page_offset e = st_size e - 1.
Proof.
  induction 1 as [ro wr file | e n e' _ _ Hstep]; [left; reflexivity|].
  apply move_window_y_done in Hstep as [Hpage [Hscan|Hscan]];
    unfold st_size; rewrite Hpage.
  - apply scan_newlines_clamp in Hscan as [->| ->]; auto.
  - apply scan_newlines_land_line_start in Hscan as [->|Hnl]; [auto | |].
    + right; left. exists (page_offset e' - 1). split; [assumption | lia].
    + unfold scroll_step. destruct (n >? 0); auto.
Qed.

Lemma page_offset_after_scrolling_witness :
  let e := state_of (qe_move_window_y (-1)
             (state_of (qe_move_window_y 2 (qe_init false false open_ended)))) in
  page_offset e = 0 \/
  (exists k, byte_at (page e) k = Some NL /\ page_offset e = k + 1) \/
  page_offset e = st_size e - 1.
Proof.
  apply page_offset_after_scrolling.
  apply (scrolled_step
           (state_of (qe_move_window_y 2 (qe_init false false open_ended))) (-1)).
  - apply (scrolled_step (qe_init false false open_ended) 2).
    + apply scrolled_init.
    + vm_compute. reflexivity.
  - vm_compute. reflexivity.
Defined.

(** C3 (as stated, refuted): on the 3-byte file ["abc"], one forward scroll
    from the initial state runs off the end and is clamped to
    [page_offset = 2]; that is not 0, and the byte before it is ['b']. *)
Lemma page_offset_after_end_clamp :
  exists e,
    scrolled_from_top e /\ page e = bytes_of "abc" /\ page_offset e = 2 /\
    ~ (page_offset e = 0 \/
       exists k, byte_at (page e) k = Some NL /\ page_offset e = k + 1).
Proof.
  exists (state_of (qe_move_window_y 1 (qe_init false false (bytes_of "abc")))).
  split; [apply (scrolled_step (qe_init false false (bytes_of "abc")) 1);
          [apply scrolled_init | vm_compute; reflexivity]|].
  split; [reflexivity|]. split; [reflexivity|].
  intros [H | (k & Hk & Hpo)]; [discriminate|].
  change (2 = k + 1) in Hpo. assert (k = 1) as -> by lia. discriminate.
Qed.




(** ** The byte under the cursor *)

Lemma find_byte_some bytes ch : forall base s,
  find_byte bytes ch base = Some s ->
  base <= s < base + Z.of_nat (length bytes) /\
  bytes !! Z.to_nat (s - base) = Some ch /\
  forall k, base <= k < s -> bytes !! Z.to_nat (k - base) <> Some ch.
Proof.
  induction bytes as [|b bytes IH]; intros base s; simpl; [discriminate|].
  destruct (b =? ch) eqn:Hb.
  - apply Z.eqb_eq in Hb. intros [= <-]. subst b.
    rewrite Z.sub_diag. simpl. repeat split; [lia | lia | intros; lia].
  - apply Z.eqb_neq in Hb. intros H. apply IH in H as (Hr & Hat & Hmin).
    repeat split; [lia | lia | |].
    + replace (Z.to_nat (s - base)) with (S (Z.to_nat (s - (base + 1)))) by lia.
      exact Hat.
    + intros k Hk. destruct (Z.eq_dec k base) as [->|Hne].
      * rewrite Z.sub_diag. simpl. congruence.
      * replace (Z.to_nat (k - base)) with (S (Z.to_nat (k - (base + 1)))) by lia.
        apply Hmin. lia.
Qed.

Lemma memchr_some pg off cnt s :
  0 <= off -> 0 <= cnt -> off + cnt <= Z.of_nat (length pg) ->
  memchr pg off NL cnt = Some s ->
  off <= s < off + cnt /\ byte_at pg s = Some NL.
Proof.
  intros Hoff Hcnt Hfit H. unfold memchr, mem_range in H.
  apply find_byte_some in H as (Hr & Hat & _).
  rewrite length_take, length_drop in Hr.
  split; [lia|].
  rewrite lookup_take_lt in Hat by lia. rewrite lookup_drop in Hat.
  unfold byte_at. replace (s <? 0) with false by (symmetry; apply Z.ltb_ge; lia).
  replace (Z.to_nat s) with (Z.to_nat off + Z.to_nat (s - off))%nat by lia.
  exact Hat.
Qed.

Lemma skip_rows_in_file pg : forall rows offset,
  0 <= offset <= Z.of_nat (length pg) ->
  match skip_rows rows pg offset with
  | RowAt o => 0 <= o <= Z.of_nat (length pg)
  | RowEof => True
  | RowFault => False
  end.
Proof.
  induction rows as [|rows IH]; intros offset Hoff; simpl; [exact Hoff|].
  replace (range_ok _ _ _) with true
    by (unfold range_ok; symmetry; rewrite !andb_true_iff, !Z.leb_le; lia).
  destruct (memchr _ _ _ _) as [s|] eqn:Hm; [|exact I].
  apply memchr_some in Hm as [Hs _]; [|lia..].
  apply IH. lia.
Qed.

(** [qe_get_cursor_byte_position] stays inside the file. *)
Lemma cursor_position_in_file e :
  1 <= st_size e -> 0 <= page_offset e <= st_size e ->
  0 <= page_offset_x e -> 0 <= cursor_x e ->
  exists o, qe_get_cursor_byte_position e = Some o /\ 0 <= o < st_size e.
Proof.
  intros HS Hpo Hpox Hcx. unfold qe_get_cursor_byte_position.
  pose proof (skip_rows_in_file (page e) (Z.to_nat (cursor_y e)) (page_offset e) Hpo) as H.
  destruct (skip_rows _ _ _) as [o| |]; [| |contradiction].
  - fold (st_size e) in H. eexists. split; [reflexivity|].
    destruct (Z.geb_spec (o + (page_offset_x e + cursor_x e)) (st_size e)); lia.
  - eexists. split; [reflexivity | lia].
Qed.

(** On the first row the code and the specification agree. *)
Lemma cursor_position_first_row e :
  cursor_y e = 0 ->
  qe_get_cursor_byte_position e = Some (spec_cursorByteOffset e).
Proof.
  intros Hy. unfold qe_get_cursor_byte_position, spec_cursorByteOffset.
  rewrite Hy. reflexivity.
Qed.

(** On the second row the loop runs once, and the distance it keeps is the
    offset itself when the view starts at offset 0. *)
Lemma cursor_position_second_row e :
  cursor_y e = 1 -> page_offset e = 0 ->
  qe_get_cursor_byte_position e = Some (spec_cursorByteOffset e).
Proof.
  intros Hy Hpo. unfold qe_get_cursor_byte_position, spec_cursorByteOffset.
  rewrite Hy, Hpo. change (Z.to_nat 1) with 1%nat.
  cbn [skip_rows spec_skip_lines].
  replace (range_ok _ _ _) with true
    by (unfold range_ok; symmetry; rewrite !andb_true_iff, !Z.leb_le; lia).
  destruct (memchr _ _ _ _) as [s'|]; [|reflexivity].
  rewrite Z.sub_0_r. reflexivity.
Qed.

(** C4 (the code differs): on ["ab\ncd\nef\n"] with [page_offset = 0] and the
    cursor on row 2, column 0, the specified offset is 6 (the byte ['e']),
    and [qe_get_cursor_byte_position] returns 3: each turn of its loop stores
    the distance to the newline, not the newline's offset. *)
Theorem cursor_position_wrong_below_first_row :
  let e := set_cursor_y 2 (qe_init false false three_lines) in
  spec_cursorByteOffset e = 6 /\
  byte_at (page e) 6 = Some (key "e") /\
  qe_get_cursor_byte_position e = Some 3.
Proof. cbv zeta. repeat split; vm_compute; reflexivity. Qed.

(** ** Cursor movement *)

Lemma move_cursor_right_at_newline t e off :
  0 <= page_offset_x e + cursor_x e + 1 < width t -> width t <= 32767 ->
  st_size e <= 2 ^ 63 - 1 ->
  qe_get_cursor_byte_position e = Some off ->
  byte_at (page e) (off + 1) = Some NL ->
  qe_move_cursor_x t 1 e = Done e.
Proof.
  intros Hview Hw HS Hoff Hnl. unfold qe_move_cursor_x.
  rewrite to_int32_small by lia.
  destruct (Z.ltb_spec (page_offset_x e + cursor_x e + 1) 0); [lia|].
  destruct (Z.geb_spec (page_offset_x e + cursor_x e + 1) (width t)); [lia|].
  cbn [Z.gtb Z.compare]. rewrite Hoff.
  pose proof (byte_at_Some _ _ _ Hnl) as Hr. unfold st_size in HS.
  rewrite to_size_t_succ by lia. rewrite Hnl. reflexivity.
Qed.

(** C6 (as amended): with the cursor on the first row of the view, or on the
    second row of a view that starts at offset 0 (the rows on which the code
    finds the cursor's byte), in a view of at most 32767 columns over a file
    of at most [2^63 - 1] bytes: when the new column stays within the view
    and the byte after the cursor's byte offset is a newline,
    [qe_move_cursor_x 1] returns the editor unchanged.  On the second line
    ["klmno"] of ["abcdefghij\nklmno\n"] (10 columns, no wrap) four
    successive moves from column 0 succeed, reaching column 4 (the byte ['o']
    at offset 15), and the fifth and sixth are refused. *)
Theorem move_cursor_right_refused_at_newline :
  (forall t e,
     cursor_y e = 0 \/ cursor_y e = 1 /\ page_offset e = 0 ->
     0 <= page_offset_x e + cursor_x e + 1 < width t -> width t <= 32767 ->
     st_size e <= 2 ^ 63 - 1 ->
     byte_at (page e) (spec_cursorByteOffset e + 1) = Some NL ->
     qe_move_cursor_x t 1 e = Done e) /\
  (forall k, (k <= 4)%nat ->
     exists e, on_second_row k = Done e /\
       cursor_x e = Z.of_nat k /\ cursor_y e = 1 /\
       page_offset e = 0 /\ page_offset_x e = 0 /\
       spec_cursorByteOffset e = 11 + Z.of_nat k /\
       qe_get_cursor_byte_position e = Some (11 + Z.of_nat k)) /\
  (exists e4, on_second_row 4 = Done e4 /\
     byte_at (page e4) (15 + 1) = Some NL /\
     qe_move_cursor_x term_5x10 1 e4 = Done e4 /\
     on_second_row 5 = Done e4 /\ on_second_row 6 = Done e4).
Proof.
  split; [|split].
  - intros t e Hrow Hview Hw HS Hnl.
    apply (move_cursor_right_at_newline t e (spec_cursorByteOffset e)); try assumption.
    destruct Hrow as [Hy|[Hy Hpo]];
      [apply cursor_position_first_row | apply cursor_position_second_row]; assumption.
  - intros k Hk.
    destruct k as [|[|[|[|[|k]]]]]; [| | | | |lia];
      (eexists; split; [vm_compute; reflexivity |
         repeat split; vm_compute; reflexivity]).
  - eexists. split; [vm_compute; reflexivity|]. repeat split.
Qed.

Lemma move_cursor_right_refused_at_newline_witness :
  let e4 := state_of (on_second_row 4) in
  spec_cursorByteOffset e4 = 15 /\
  qe_move_cursor_x term_5x10 1 e4 = Done e4.
Proof.
  intros e4. split; [reflexivity|].
  apply (proj1 move_cursor_right_refused_at_newline term_5x10 e4).
  - right. split; reflexivity.
  - vm_compute. split; [discriminate | reflexivity].
  - vm_compute. discriminate.
  - vm_compute. discriminate.
  - reflexivity.
Defined.

(** C6 (as stated, refuted): the fifth move right on the second line does not
    succeed: after four moves the cursor is on ['o'] in column 4, the next
    byte is the newline, and the fifth call leaves [cursor_x = 4].  And below
    the second row the move is not refused at a newline: on
    ["abcdefgh\nc\ngh\n"], after [j], [j], [l] the cursor is on row 2,
    column 1, the byte ['h'] at offset 12 with the newline after it, while the
    code tests the byte after offset 3 and moves on to column 2. *)
Lemma move_cursor_right_refusal_differs :
  (exists e4 e5,
     on_second_row 4 = Done e4 /\ cursor_x e4 = 4 /\
     on_second_row 5 = Done e5 /\ cursor_x e5 = 4 /\ e5 = e4) /\
  (let e := state_of (run_keys term_5x10 [key "j"; key "j"; key "l"]
                        (qe_init false false short_lines)) in
   cursor_y e = 2 /\ cursor_x e = 1 /\ page_offset e = 0 /\ page_offset_x e = 0 /\
   spec_cursorByteOffset e = 12 /\
   byte_at (page e) 12 = Some (key "h") /\ byte_at (page e) (12 + 1) = Some NL /\
   qe_get_cursor_byte_position e = Some 3 /\
   cursor_x (state_of (qe_move_cursor_x term_5x10 1 e)) = 2).
Proof.
  split.
  - eexists. eexists. split; [vm_compute; reflexivity|].
    split; [reflexivity|]. split; [vm_compute; reflexivity|].
    split; reflexivity.
  - cbv zeta. repeat split; vm_compute; reflexivity.
Qed.

(** [qe_move_cursor_y] keeps the cursor row within [0, height - 2]. *)
Lemma move_cursor_y_keeps_row t y e e' :
  2 <= height t <= 32767 -> y = 1 \/ y = -1 ->
  0 <= cursor_y e <= height t - 2 ->
  qe_move_cursor_y t y e = Done e' ->
  0 <= cursor_y e' <= height t - 2.
Proof.
  intros Hh Hy Hrow. unfold qe_move_cursor_y.
  rewrite to_int32_small by lia.
  destruct (Z.ltb_spec (cursor_y e + y) 0).
  - destruct (page_offset e =? 0); [intros [= <-]; assumption|].
    destruct (qe_move_window_y _ e); cbn [bind]; intros [= <-].
    cbn. unfold to_uint16, wrap_u. rewrite Z.mod_small by lia. lia.
  - destruct (Z.geb_spec (cursor_y e + y) (height t - 1)).
    + destruct (qe_move_window_y _ e); cbn [bind]; intros [= <-]. cbn. lia.
    + intros [= <-]. cbn. unfold to_uint16, wrap_u. rewrite Z.mod_small by lia. lia.
Qed.

(** C10 (the code differs): on a one-byte file the cursor is on the last byte
    (offset [S - 1 = 0]); a cursor-right move and an Insert-mode overwrite
    both read the byte at offset [S = 1], outside the file. *)
Theorem lookahead_reads_past_last_byte :
  let e := qe_init false false (bytes_of "a") in
  st_size e = 1 /\
  qe_get_cursor_byte_position e = Some 0 /\
  byte_at (page e) (0 + 1) = None /\
  qe_move_cursor_x term_5x10 1 e = Crashed e /\
  (exists e', run_keys term_5x10 [key "i"; key "x"] e = Crashed e' /\
              page e' = bytes_of "x").
Proof.
  cbv zeta. repeat split; try (vm_compute; reflexivity).
  eexists. split; vm_compute; reflexivity.
Qed.

(** ** Search *)













(** ** Insert mode *)

Lemma move_cursor_x_page t x e :
  page (state_of (qe_move_cursor_x t x e)) = page e.
Proof. unfold qe_move_cursor_x. repeat case_match; reflexivity. Qed.

Lemma process_insert_default t c e :
  insert_mode_command c = false -> process_insert t c e = insert_byte t c e.
Proof.
  unfold insert_mode_command, process_insert, navigate. intros H.
  rewrite !orb_false_iff in H. destruct_and!.
  repeat match goal with Heq : (_ =? _) = false |- _ => rewrite Heq; clear Heq end.
  reflexivity.
Qed.

Lemma insert_byte_page t c e o :
  0 <= o < st_size e ->
  qe_get_cursor_byte_position e = Some o ->
  page (state_of (insert_byte t c e)) = <[Z.to_nat o := to_uint8 c]> (page e).
Proof.
  intros Ho Hpos. unfold insert_byte, byte_store. rewrite Hpos.
  unfold st_size in Ho.
  replace ((0 <=? o) && (o <? _)) with true
    by (symmetry; rewrite andb_true_iff, Z.leb_le, Z.ltb_lt; lia).
  destruct (byte_at _ (o + 1)) as [b|]; [|reflexivity].
  destruct (b =? NL); [reflexivity|]. simpl.
  pose proof (move_cursor_x_page t 1
    (set_page (<[Z.to_nat o := to_uint8 c]> (page e)) e)) as Hx.
  destruct (qe_move_cursor_x _ _ _); exact Hx.
Qed.

(** Where the view is in range ([0 <= page_offset <= st_size],
    [page_offset_x >= 0], [cursor_x >= 0]) the store of Insert mode is exact:
    a byte [c] that is not one of the mode's command keys is written at
    [o = qe_get_cursor_byte_position]; after the key is processed (whatever
    the cursor advance then does) the file has the same size, holds [c] at
    offset [o], and is unchanged at every other offset. *)
Lemma insert_overwrites_exactly_one_byte t c e o :
  mode e = MODE_INSERT ->
  0 <= c < 256 -> insert_mode_command c = false ->
  1 <= st_size e -> 0 <= page_offset e <= st_size e ->
  0 <= page_offset_x e -> 0 <= cursor_x e ->
  qe_get_cursor_byte_position e = Some o ->
  let e' := state_of (qe_process_key t c e) in
  st_size e' = st_size e /\
  byte_at (page e') o = Some c /\
  (forall i, i <> o -> byte_at (page e') i = byte_at (page e) i).
Proof.
  intros Hmode Hc Hcmd HS Hpo Hpox Hcx Hpos e'.
  destruct (cursor_position_in_file e HS Hpo Hpox Hcx) as (o' & Ho' & Hrange).
  assert (o' = o) by congruence. subst o'.
  assert (Hpage : page e' = <[Z.to_nat o := c]> (page e)).
  { subst e'. unfold qe_process_key. rewrite Hmode, process_insert_default by assumption.
    rewrite (insert_byte_page t c e o Hrange Hpos).
    unfold to_uint8, wrap_u. rewrite Z.mod_small by lia. reflexivity. }
  unfold st_size in *. rewrite Hpage, length_insert.
  split; [reflexivity|]. split.
  - unfold byte_at. replace (o <? 0) with false by (symmetry; apply Z.ltb_ge; lia).
    apply list_lookup_insert_eq. lia.
  - intros i Hi. unfold byte_at. destruct (i <? 0) eqn:Hneg; [reflexivity|].
    apply Z.ltb_ge in Hneg. apply list_lookup_insert_ne. lia.
Qed.

Lemma insert_overwrites_exactly_one_byte_witness :
  let e := set_mode MODE_INSERT (qe_init false false two_lines) in
  let e' := state_of (qe_process_key term_5x10 (key "x") e) in
  st_size e' = st_size e /\
  byte_at (page e') 0 = Some (key "x") /\
  (forall i, i <> 0 -> byte_at (page e') i = byte_at (page e) i).
Proof.
  intros e.
  apply (insert_overwrites_exactly_one_byte term_5x10 (key "x") e 0).
  - reflexivity.
  - vm_compute. split; [discriminate | reflexivity].
  - reflexivity.
  - vm_compute. discriminate.
  - vm_compute. split; discriminate.
  - vm_compute. discriminate.
  - vm_compute. discriminate.
  - reflexivity.
Defined.

(** C7 (the code differs): the program does not keep [page_offset_x >= 0].
    On ["ab\ncd\nef\n"] (5 rows, 10 columns) the keys [/], Ctrl-J, [c], Enter
    find a match that starts on a newline and leave [page_offset_x = -1];
    four [k] bring the view back to offset 0 and [i] enters Insert mode with
    the cursor's byte offset at [-1].  The byte ['x'] typed next is stored at
    [page[-1]], outside the file: no byte of the file changes. *)
Theorem insert_after_search_writes_before_file :
  let e := state_of (run_keys term_5x10 search_then_insert
                       (qe_init false false three_lines)) in
  run_keys term_5x10 search_then_insert (qe_init false false three_lines) = Done e /\
  mode e = MODE_INSERT /\ read_only e = false /\
  page_offset e = 0 /\ page_offset_x e = -1 /\ cursor_x e = 0 /\ cursor_y e = 0 /\
  spec_cursorByteOffset e = -1 /\
  qe_get_cursor_byte_position e = Some (-1) /\
  insert_mode_command (key "x") = false /\
  qe_process_key term_5x10 (key "x") e = Crashed e /\
  page e = three_lines.
Proof.
  cbv zeta. do 11 (split; [vm_compute; reflexivity|]). vm_compute. reflexivity.
Qed.

(** C8 (the code differs): with 5 rows, typing four bytes in Insert mode at
    the start of ["a\na\na\na\na\n"] leaves [cursor_y = 4], above
    [height - 2 = 3]: the Insert-mode advance increments [cursor_y] without
    the test that [qe_move_cursor_y] makes. *)
Theorem insert_advance_leaves_cursor_y_out_of_range :
  exists e',
    run_keys term_5x10 [key "i"; key "x"; key "x"; key "x"; key "x"]
      (qe_init false false five_lines) = Done e' /\
    cursor_y e' = 4 /\ height term_5x10 - 2 = 3.
Proof. eexists. split; [vm_compute; reflexivity | split; reflexivity]. Qed.

(** ** Search mode *)

Lemma match_line_start_total pg : forall fuel addr,
  (Z.to_nat addr < fuel)%nat -> match_line_start fuel pg addr <> Exhausted.
Proof.
  induction fuel as [|fuel IH]; intros addr Hf; cbn [match_line_start]; [lia|].
  destruct (Z.gtb_spec addr 0); [|discriminate].
  destruct (byte_at pg addr) as [b|]; [|discriminate].
  destruct (b =? NL); [discriminate|]. apply IH. lia.
Qed.

(** Typing into the pattern stays inside [search_buf] as long as no backspace
    arrives while the pattern is empty. *)
Lemma search_type_in_bounds c e :
  length (search_buf e) = 64%nat -> 0 <= search_len e <= 63 ->
  (c = BACKSPACE -> search_len e <> 0) ->
  exists e', search_type c e = Done e' /\
    0 <= search_len e' <= 63 /\ length (search_buf e') = 64%nat.
Proof.
  intros Hbuf Hlen Hback. unfold search_type. rewrite Hbuf.
  destruct (Z.geb_spec (search_len e) (Z.of_nat 64 - 1)); [eauto|].
  destruct (Z.eqb_spec c BACKSPACE) as [Hc|Hc]; cbn [negb].
  - specialize (Hback Hc).
    unfold store_search, byte_store, to_size_t, wrap_u.
    cbn [search_len search_buf set_search_len].
    rewrite Z.mod_small by lia.
    destruct (Z.eqb_spec (search_len e - 1) 0) as [Hz|Hz];
      cbn [search_len search_buf set_search_len]; rewrite Hbuf.
    + cbn. eexists. split; [reflexivity|].
      cbn. rewrite length_insert. split; [lia | assumption].
    + replace ((0 <=? search_len e - 1) && (search_len e - 1 <? Z.of_nat 64))
        with true by (symmetry; rewrite andb_true_iff, Z.leb_le, Z.ltb_lt; lia).
      cbn. eexists. split; [reflexivity|].
      cbn. rewrite length_insert. split; [lia | assumption].
  - unfold store_search, byte_store. rewrite Hbuf.
    replace ((0 <=? search_len e) && (search_len e <? Z.of_nat 64))
      with true by (symmetry; rewrite andb_true_iff, Z.leb_le, Z.ltb_lt; lia).
    cbn [bind search_len search_buf set_search_len set_search_buf].
    rewrite length_insert, Hbuf.
    unfold to_size_t, wrap_u. rewrite Z.mod_small by lia.
    replace ((0 <=? search_len e + 1) && (search_len e + 1 <? Z.of_nat 64))
      with true by (symmetry; rewrite andb_true_iff, Z.leb_le, Z.ltb_lt; lia).
    cbn. eexists. split; [reflexivity|].
    cbn. rewrite !length_insert. split; [lia | assumption].
Qed.

(** C9 (the code differs): a backspace typed into the empty search pattern
    decrements [search_len] from 0 to [2^64 - 1] and stores the terminator at
    that index, outside [search_buf]. *)
Theorem backspace_on_empty_pattern_underflows :
  exists e e',
    run_keys term_5x10 [key "/"] (qe_init false false two_lines) = Done e /\
    search_len e = 0 /\
    qe_process_key term_5x10 BACKSPACE e = Crashed e' /\
    search_len e' = 2 ^ 64 - 1 /\
    byte_store (search_buf e') (search_len e') 0 = None.
Proof.
  eexists. eexists. split; [vm_compute; reflexivity|].
  split; [reflexivity|]. split; [vm_compute; reflexivity|].
  split; reflexivity.
Qed.

(** * Further properties of the code *)

(** ** Reads inside the file *)

Lemma byte_at_in_file pg off :
  0 <= off < Z.of_nat (length pg) -> exists b, byte_at pg off = Some b.
Proof.
  intros H. unfold byte_at. rewrite (proj2 (Z.ltb_ge off 0)) by lia.
  destruct (lookup_lt_is_Some_2 pg (Z.to_nat off)) as [b Hb]; [lia|]. eauto.
Qed.

(** ** Scrolling stays inside the file *)

Section ScrollSafety.
Variable pg : list Z.

Lemma line_start_in_file : forall fuel po q,
  line_start fuel pg po = Land q -> 0 <= q <= po + 1.
Proof.
  intros fuel po q H. apply line_start_land in H as [(-> & Hpo & _)|(Hq & _)]; lia.
Qed.

Lemma line_start_no_fault : forall fuel po p,
  0 <= po < Z.of_nat (length pg) -> line_start fuel pg po <> Fault p.
Proof.
  induction fuel as [|fuel IH]; intros po p Hpo; cbn [line_start]; [discriminate|].
  destruct (Z.eqb_spec po 0); [discriminate|].
  destruct (byte_at_in_file pg po Hpo) as [b ->].
  destruct (b =? NL); [discriminate|]. apply IH. lia.
Qed.

Lemma scan_newlines_land_bounds : forall fuel step an i po q,
  step = 1 \/ step = -1 ->
  scan_newlines fuel pg step an i po = Land q ->
  0 <= q <= Z.of_nat (length pg).
Proof.
  induction fuel as [|fuel IH]; intros step an i po q Hstep;
    cbn [scan_newlines]; [discriminate|].
  destruct (Z.ltb_spec po 0); [discriminate|].
  destruct (Z.geb_spec po (Z.of_nat (length pg))); [discriminate|].
  destruct (byte_at pg po) as [b|]; [|discriminate].
  destruct (b =? NL); [|apply IH; assumption].
  destruct (_ >? an); [|apply IH; assumption].
  destruct Hstep as [-> | ->]; cbn [Z.ltb Z.compare].
  - intros [= <-]. lia.
  - intros Hl. apply line_start_in_file in Hl. lia.
Qed.

Lemma scan_forward_no_fault : forall fuel an i po p,
  scan_newlines fuel pg 1 an i po <> Fault p.
Proof.
  induction fuel as [|fuel IH]; intros an i po p; cbn [scan_newlines]; [discriminate|].
  destruct (Z.ltb_spec po 0); [discriminate|].
  destruct (Z.geb_spec po (Z.of_nat (length pg))); [discriminate|].
  destruct (byte_at_in_file pg po ltac:(lia)) as [b ->].
  destruct (b =? NL); [|apply IH].
  destruct (_ >? an); [discriminate | apply IH].
Qed.

Lemma scan_backward_fault : forall fuel an i po p,
  scan_newlines fuel pg (-1) an i po = Fault p ->
  p = -1 /\ byte_at pg 0 = Some NL.
Proof.
  induction fuel as [|fuel IH]; intros an i po p; cbn [scan_newlines]; [discriminate|].
  destruct (Z.ltb_spec po 0); [discriminate|].
  destruct (Z.geb_spec po (Z.of_nat (length pg))); [discriminate|].
  destruct (byte_at pg po) as [b|] eqn:Hb.
  2:{ destruct (byte_at_in_file pg po ltac:(lia)) as [b Hb']. congruence. }
  destruct (b =? NL) eqn:Hnl; [|apply IH].
  destruct (_ >? an); [|apply IH].
  cbn [Z.ltb Z.compare].
  destruct (Z.eq_dec po 0) as [->|Hne].
  - apply Z.eqb_eq in Hnl. subst b.
    change (line_start (S (Z.to_nat (0 + -1))) pg (0 + -1)) with (Fault (-1)).
    intros [= <-]. split; [reflexivity | assumption].
  - intros Hf. exfalso. revert Hf. apply line_start_no_fault. lia.
Qed.
End ScrollSafety.

Lemma scroll_scan_forward_no_fault pg n po p :
  0 < n -> scroll_scan pg n po <> Fault p.
Proof.
  intros Hn. unfold scroll_scan, scroll_step. rewrite gtb_true by lia.
  apply scan_forward_no_fault.
Qed.

(** X1.  On a file of at least one byte, a scroll that returns leaves
    [page_offset] in [0, st_size] and changes nothing else of the view:
    the file, the horizontal offset, the cursor and the mode are as before. *)
Theorem scroll_keeps_offset_in_file n e e' :
  1 <= st_size e ->
  qe_move_window_y n e = Done e' ->
  0 <= page_offset e' <= st_size e /\
  page e' = page e /\ page_offset_x e' = page_offset_x e /\
  cursor_x e' = cursor_x e /\ cursor_y e' = cursor_y e /\ mode e' = mode e.
Proof.
  intros HS Hdone. unfold qe_move_window_y in Hdone. unfold st_size in *.
  destruct (scroll_scan _ _ _) as [po|po|po|] eqn:Hscan; try discriminate;
    injection Hdone as <-; cbn; (split; [|repeat split]).
  - apply scan_newlines_clamp in Hscan. lia.
  - apply scan_newlines_land_bounds in Hscan; [assumption|].
    unfold scroll_step. destruct (n >? 0); auto.
Qed.

Lemma scroll_keeps_offset_in_file_witness :
  let e := qe_init false false plain_lines in
  let e' := state_of (qe_move_window_y 1 e) in
  0 <= page_offset e' <= st_size e /\
  page e' = page e /\ page_offset_x e' = page_offset_x e /\
  cursor_x e' = cursor_x e /\ cursor_y e' = cursor_y e /\ mode e' = mode e.
Proof.
  intros e e'. apply (scroll_keeps_offset_in_file 1 e e').
  - vm_compute. discriminate.
  - reflexivity.
Defined.

(** X2.  On a file of at least one byte a forward scroll ([n > 0]) always
    returns: from any offset it reads no byte outside the mapping. *)
Theorem scroll_forward_never_crashes n e :
  1 <= st_size e -> 0 < n -> exists e', qe_move_window_y n e = Done e'.
Proof.
  intros _ Hn. unfold qe_move_window_y.
  pose proof (scroll_scan_total (page e) n (page_offset e)) as Htot.
  pose proof (scroll_scan_forward_no_fault (page e) n (page_offset e)) as Hnf.
  destruct (scroll_scan _ _ _) as [po|po|po|] eqn:Hscan; eauto; [|contradiction].
  exfalso. apply (Hnf po Hn). reflexivity.
Qed.

Lemma scroll_forward_never_crashes_witness :
  exists e', qe_move_window_y 3 (qe_init false false open_ended) = Done e'.
Proof.
  apply (scroll_forward_never_crashes 3 (qe_init false false open_ended)).
  - vm_compute. discriminate.
  - lia.
Defined.

(** X3.  The only read outside the mapping that a scroll makes is at offset
    -1: it happens on a backward scroll (or [n = 0]) in a file whose first
    byte is a newline, when that newline is the last one counted. *)
Theorem scroll_crash_only_before_offset_zero n e e' :
  qe_move_window_y n e = Crashed e' ->
  n <= 0 /\ byte_at (page e) 0 = Some NL /\ page_offset e' = -1 /\ page e' = page e.
Proof.
  intros Hc. unfold qe_move_window_y in Hc.
  pose proof (scroll_scan_total (page e) n (page_offset e)) as Htot.
  destruct (scroll_scan _ _ _) as [po|po|po|] eqn:Hscan; try discriminate; [|contradiction].
  injection Hc as <-.
  destruct (Z.lt_ge_cases 0 n) as [Hpos|Hneg].
  { exfalso. exact (scroll_scan_forward_no_fault _ _ _ po Hpos Hscan). }
  split; [lia|]. unfold scroll_scan, scroll_step in Hscan.
  rewrite gtb_false in Hscan by lia.
  apply scan_backward_fault in Hscan as [-> Hnl]. cbn. auto.
Qed.

Lemma scroll_crash_only_before_offset_zero_witness :
  let e := qe_init false false leading_newline in
  let e' := state_of (qe_move_window_y 0 e) in
  0 <= 0 /\ byte_at (page e) 0 = Some NL /\ page_offset e' = -1 /\ page e' = page e.
Proof.
  intros e e'. apply (scroll_crash_only_before_offset_zero 0 e e'). reflexivity.
Defined.

Lemma scan_newlines_step fuel pg step an i po :
  scan_newlines (S fuel) pg step an i po =
  if po <? 0 then Clamp 0
  else if po >=? Z.of_nat (length pg) then Clamp (Z.of_nat (length pg) - 1)
  else match byte_at pg po with
       | None => Fault po
       | Some b =>
           if b =? NL then
             if to_int32 (i + 1) >? an then
               if step <? 0
               then line_start (S (Z.to_nat (po + step))) pg (po + step)
               else Land (po + step)
             else scan_newlines fuel pg step an (to_int32 (i + 1)) (po + step)
           else scan_newlines fuel pg step an i (po + step)
       end.
Proof. reflexivity. Qed.

(** X4.  At the top of a file of at least one byte, scrolling up by any
    number of lines returns with [page_offset] still 0, also when the first
    byte is a newline. *)
Theorem scroll_up_at_top_stays n e :
  1 <= st_size e -> page_offset e = 0 -> - 2 ^ 31 < n <= -1 ->
  qe_move_window_y n e = Done (qe_update_status_buffer (set_page_offset 0 e)).
Proof.
  intros HS Hpo Hn. unfold qe_move_window_y, scroll_scan, scroll_step, scroll_count.
  rewrite gtb_false by lia. rewrite to_int32_small by lia. rewrite Hpo.
  unfold st_size in HS.
  destruct (length (page e)) as [|len] eqn:Hlen; [lia|].
  assert (Hclamp : forall an i, scan_newlines (S len) (page e) (-1) an i (0 + -1) = Clamp 0)
    by reflexivity.
  rewrite scan_newlines_step, Hlen.
  destruct (Z.geb_spec 0 (Z.of_nat (S len))); [lia|].
  cbn [Z.ltb Z.compare].
  destruct (byte_at (page e) 0) as [b|] eqn:Hb.
  2:{ exfalso. destruct (byte_at_in_file (page e) 0) as [b Hb']; [lia | congruence]. }
  destruct (b =? NL); [|rewrite Hclamp; reflexivity].
  rewrite to_int32_small by lia. rewrite gtb_false by lia.
  rewrite Hclamp. reflexivity.
Qed.

Lemma scroll_up_at_top_stays_witness :
  let e := qe_init false false leading_newline in
  qe_move_window_y (-4) e = Done (qe_update_status_buffer (set_page_offset 0 e)).
Proof.
  intros e. apply (scroll_up_at_top_stays (-4) e).
  - vm_compute. discriminate.
  - reflexivity.
  - lia.
Defined.

(** ** Horizontal cursor movement and scrolling *)

Lemma to_uint16_small z : 0 <= z < 65536 -> to_uint16 z = z.
Proof. intros H. unfold to_uint16, wrap_u. apply Z.mod_small. exact H. Qed.

(** X5.  From a cursor inside a view of at most 32767 columns
    ([0 <= cursor_x < width]) with [page_offset_x >= 0] and the new column
    [page_offset_x + cursor_x + 1] below [2^31] (so that the 32-bit [new_x]
    does not wrap), one step right that returns keeps [cursor_x] inside the
    view and [page_offset_x] non-negative; the step is either refused (nothing
    changes) or the column [page_offset_x + cursor_x] grows by exactly one.
    The file, the vertical offset and the cursor row are untouched. *)
Theorem move_cursor_right_keeps_column t e e' :
  0 < width t <= 32767 ->
  0 <= cursor_x e < width t -> 0 <= page_offset_x e ->
  page_offset_x e + cursor_x e + 1 < 2 ^ 31 ->
  qe_move_cursor_x t 1 e = Done e' ->
  0 <= cursor_x e' < width t /\ 0 <= page_offset_x e' /\
  (e' = e \/ page_offset_x e' + cursor_x e' = page_offset_x e + cursor_x e + 1) /\
  page e' = page e /\ page_offset e' = page_offset e /\ cursor_y e' = cursor_y e.
Proof.
  intros Hw Hcx Hpox Hsmall. unfold qe_move_cursor_x.
  rewrite to_int32_small by lia.
  destruct (Z.ltb_spec (page_offset_x e + cursor_x e + 1) 0); [lia|].
  destruct (Z.geb_spec (page_offset_x e + cursor_x e + 1) (width t)).
  - intros [= <-]. cbn.
    pose proof (Z.rem_bound_pos (page_offset_x e + cursor_x e + 1) (width t)
                  ltac:(lia) ltac:(lia)) as Hrem.
    rewrite to_uint16_small by lia.
    repeat split; try lia; right; lia.
  - cbn [Z.gtb Z.compare].
    destruct (qe_get_cursor_byte_position e) as [off|]; [|discriminate].
    destruct (byte_at _ _) as [b|]; [|discriminate].
    destruct (b =? NL); intros [= <-].
    + repeat split; try lia; left; reflexivity.
    + cbn. rewrite to_uint16_small by lia.
      repeat split; try lia; right; lia.
Qed.

Lemma move_cursor_right_keeps_column_witness :
  let e := qe_init false false two_lines in
  let e' := state_of (qe_move_cursor_x term_5x10 1 e) in
  0 <= cursor_x e' < width term_5x10 /\ 0 <= page_offset_x e' /\
  (e' = e \/ page_offset_x e' + cursor_x e' = page_offset_x e + cursor_x e + 1) /\
  page e' = page e /\ page_offset e' = page_offset e /\ cursor_y e' = cursor_y e.
Proof.
  intros e e'. apply (move_cursor_right_keeps_column term_5x10 e e').
  - cbn. lia.
  - cbn. lia.
  - cbn. lia.
  - cbn. lia.
  - reflexivity.
Defined.

(** X6.  On a file of at least one byte, from a cursor inside a view of at
    most 32767 columns ([0 <= cursor_x < width]) with [page_offset_x >= 0]
    and the column [page_offset_x + cursor_x] below [2^31], and unless the
    cursor is in column 0 of a horizontally scrolled view ([cursor_x >= 1] or
    [page_offset_x = 0]): one step left returns and moves the column
    [page_offset_x + cursor_x] down by one, stopping at column 0, with
    [cursor_x] still inside the view and [page_offset_x] non-negative; the
    file, the vertical offset and the cursor row are untouched. *)
Theorem move_cursor_left_keeps_column t e :
  1 <= st_size e ->
  0 < width t <= 32767 ->
  0 <= cursor_x e < width t -> 0 <= page_offset_x e ->
  page_offset_x e + cursor_x e < 2 ^ 31 ->
  1 <= cursor_x e \/ page_offset_x e = 0 ->
  exists e', qe_move_cursor_x t (-1) e = Done e' /\
    0 <= cursor_x e' < width t /\ 0 <= page_offset_x e' /\
    page_offset_x e' + cursor_x e' = Z.max 0 (page_offset_x e + cursor_x e - 1) /\
    page e' = page e /\ page_offset e' = page_offset e /\ cursor_y e' = cursor_y e.
Proof.
  intros _ Hw Hcx Hpox Hsmall Hleft. unfold qe_move_cursor_x.
  replace (page_offset_x e + cursor_x e + -1) with (page_offset_x e + cursor_x e - 1) by lia.
  rewrite to_int32_small by lia.
  destruct (Z.ltb_spec (page_offset_x e + cursor_x e - 1) 0).
  - eexists. split; [reflexivity|]. cbn.
    replace (cursor_x e =? 0) with true by (symmetry; apply Z.eqb_eq; lia).
    repeat split; lia.
  - destruct (Z.geb_spec (page_offset_x e + cursor_x e - 1) (width t)).
    + eexists. split; [reflexivity|]. cbn.
      pose proof (Z.rem_bound_pos (page_offset_x e + cursor_x e - 1) (width t)
                    ltac:(lia) ltac:(lia)) as Hrem.
      rewrite to_uint16_small by lia. repeat split; lia.
    + cbn [Z.gtb Z.compare]. eexists. split; [reflexivity|]. cbn.
      replace (cursor_x e + -1) with (cursor_x e - 1) by lia.
      rewrite to_uint16_small by lia. repeat split; lia.
Qed.

Lemma move_cursor_left_keeps_column_witness :
  let e := set_cursor_x 3 (qe_init false false two_lines) in
  exists e', qe_move_cursor_x term_5x10 (-1) e = Done e' /\
    0 <= cursor_x e' < width term_5x10 /\ 0 <= page_offset_x e' /\
    page_offset_x e' + cursor_x e' = Z.max 0 (page_offset_x e + cursor_x e - 1) /\
    page e' = page e /\ page_offset e' = page_offset e /\ cursor_y e' = cursor_y e.
Proof.
  intros e. apply (move_cursor_left_keeps_column term_5x10 e).
  - vm_compute. discriminate.
  - cbn. lia.
  - cbn. lia.
  - cbn. lia.
  - cbn. lia.
  - left. cbn. lia.
Defined.

(** X7.  In the excluded case, the cursor in column 0 of a view scrolled right
    by between 1 and [width] columns, a step left leaves [page_offset_x] as it
    is and stores [0 - 1] in the unsigned 16-bit [cursor_x], which becomes
    65535. *)
Theorem move_cursor_left_wraps_cursor_x t e :
  cursor_x e = 0 -> 1 <= page_offset_x e <= width t -> width t <= 32767 ->
  exists e', qe_move_cursor_x t (-1) e = Done e' /\
    cursor_x e' = 65535 /\ page_offset_x e' = page_offset_x e.
Proof.
  intros Hcx Hpox Hw. unfold qe_move_cursor_x. rewrite Hcx.
  replace (page_offset_x e + 0 + -1) with (page_offset_x e - 1) by lia.
  rewrite to_int32_small by lia.
  destruct (Z.ltb_spec (page_offset_x e - 1) 0); [lia|].
  destruct (Z.geb_spec (page_offset_x e - 1) (width t)); [lia|].
  cbn [Z.gtb Z.compare]. eexists. split; [reflexivity|]. split; reflexivity.
Qed.

Lemma move_cursor_left_wraps_cursor_x_witness :
  let e := state_of (run_keys term_5x10 [CTRL (key "l")] (qe_init false false two_lines)) in
  page_offset_x e = 5 /\
  exists e', qe_move_cursor_x term_5x10 (-1) e = Done e' /\
    cursor_x e' = 65535 /\ page_offset_x e' = page_offset_x e.
Proof.
  intros e. split; [reflexivity|].
  apply (move_cursor_left_wraps_cursor_x term_5x10 e).
  - reflexivity.
  - vm_compute. split; discriminate.
  - vm_compute. discriminate.
Defined.

Lemma normal_ctrl_l t e :
  process_normal t (CTRL (key "l")) e = qe_move_window_x (to_int32 (Z.quot (width t) 2)) e.
Proof. reflexivity. Qed.

Lemma normal_ctrl_h t e :
  process_normal t (CTRL (key "h")) e = qe_move_window_x (to_int32 (Z.quot (- width t) 2)) e.
Proof. reflexivity. Qed.

Lemma move_window_x_offset n e :
  exists e', qe_move_window_x n e = Done e' /\
    page_offset_x e' = Z.max 0 (page_offset_x e + n) /\ mode e' = mode e.
Proof.
  unfold qe_move_window_x. cbn [page_offset_x set_page_offset_x].
  destruct (Z.ltb_spec (page_offset_x e + n) 0);
    (eexists; split; [reflexivity|]; cbn; split; [lia | reflexivity]).
Qed.

(** X8.  In Normal mode, on a file of at least one byte and a terminal of at
    most 32767 columns, with [page_offset_x] between [-2^62] and [2^62] (so
    that the 64-bit sums do not overflow), Ctrl-l moves the view right by
    half the width (rounded toward zero) and Ctrl-h typed next moves it left
    by the same amount, each stopping at 0: [page_offset_x] ends at the
    larger of 0 and its old value.  It is restored when it was non-negative,
    and becomes 0 from the [-1] that a search can leave. *)
Theorem scroll_right_then_left_restores t e :
  0 <= width t <= 32767 -> mode e = MODE_NORMAL -> 1 <= st_size e ->
  - 2 ^ 62 <= page_offset_x e <= 2 ^ 62 ->
  exists e1 e2,
    qe_process_key t (CTRL (key "l")) e = Done e1 /\
    page_offset_x e1 = Z.max 0 (page_offset_x e + Z.quot (width t) 2) /\
    qe_process_key t (CTRL (key "h")) e1 = Done e2 /\
    page_offset_x e2 = Z.max 0 (page_offset_x e).
Proof.
  intros Hw Hmode _ _.
  assert (Hq : 0 <= Z.quot (width t) 2 <= width t).
  { split; [apply Z.quot_pos; lia|]. apply Z.quot_le_upper_bound; lia. }
  assert (Hopp : Z.quot (- width t) 2 = - Z.quot (width t) 2)
    by (apply Z.quot_opp_l; lia).
  destruct (move_window_x_offset (Z.quot (width t) 2) e) as (e1 & H1 & Hx1 & Hm1).
  destruct (move_window_x_offset (- Z.quot (width t) 2) e1) as (e2 & H2 & Hx2 & _).
  exists e1, e2. split.
  { unfold qe_process_key. rewrite Hmode, normal_ctrl_l.
    rewrite to_int32_small by lia. exact H1. }
  split; [exact Hx1|]. split.
  { unfold qe_process_key. rewrite Hm1, Hmode, normal_ctrl_h, Hopp.
    rewrite to_int32_small by lia. exact H2. }
  lia.
Qed.

Lemma scroll_right_then_left_restores_witness :
  let e := state_of (run_keys term_5x10 [key "/"; CTRL (key "j"); key "c"; ENTER]
                       (qe_init false false three_lines)) in
  page_offset_x e = -1 /\
  exists e1 e2,
    qe_process_key term_5x10 (CTRL (key "l")) e = Done e1 /\
    page_offset_x e1 = Z.max 0 (page_offset_x e + Z.quot (width term_5x10) 2) /\
    qe_process_key term_5x10 (CTRL (key "h")) e1 = Done e2 /\
    page_offset_x e2 = Z.max 0 (page_offset_x e).
Proof.
  intros e. split; [reflexivity|].
  apply (scroll_right_then_left_restores term_5x10 e).
  - vm_compute. split; discriminate.
  - reflexivity.
  - vm_compute. discriminate.
  - vm_compute. split; discriminate.
Defined.

(** ** Vertical cursor movement *)

Lemma move_window_y_view n e e1 :
  qe_move_window_y n e = Done e1 ->
  page e1 = page e /\ cursor_x e1 = cursor_x e /\ cursor_y e1 = cursor_y e /\
  page_offset_x e1 = page_offset_x e.
Proof.
  unfold qe_move_window_y.
  destruct (scroll_scan _ _ _); try discriminate; intros [= <-]; repeat split.
Qed.

(** X9.  One step up or down, from a cursor row inside a view of 2 to 32767
    lines, keeps the row inside the view and leaves the file, the cursor
    column and the horizontal offset alone.  The step is refused at the top
    of the file, or moves the cursor by one row without scrolling, or (off
    the top or bottom row) scrolls by half the height and puts the cursor on
    the opposite edge row. *)
Theorem move_cursor_y_stays_in_view t y e e' :
  2 <= height t <= 32767 -> y = 1 \/ y = -1 ->
  0 <= cursor_y e <= height t - 2 ->
  qe_move_cursor_y t y e = Done e' ->
  0 <= cursor_y e' <= height t - 2 /\
  page e' = page e /\ cursor_x e' = cursor_x e /\
  page_offset_x e' = page_offset_x e /\
  (e' = e /\ y = -1 /\ cursor_y e = 0 /\ page_offset e = 0 \/
   cursor_y e' = cursor_y e + y /\ page_offset e' = page_offset e \/
   exists e1, qe_move_window_y (Z.quot (y * height t) 2) e = Done e1 /\
     page_offset e' = page_offset e1 /\
     cursor_y e' = if y >? 0 then 0 else height t - 2).
Proof.
  intros Hh Hy Hrow Hmove.
  split; [exact (move_cursor_y_keeps_row t y e e' Hh Hy Hrow Hmove)|].
  revert Hmove. unfold qe_move_cursor_y.
  rewrite to_int32_small by lia.
  destruct (Z.ltb_spec (cursor_y e + y) 0) as [Htop|Hin].
  - assert (y = -1) by lia. subst y.
    destruct (Z.eqb_spec (page_offset e) 0) as [Hz|Hnz].
    { intros [= <-]. repeat split. left. repeat split; [lia | assumption]. }
    assert (Hq : -32767 <= Z.quot (- height t) 2 <= 0).
    { rewrite Z.quot_opp_l by lia.
      pose proof (Z.quot_pos (height t) 2 ltac:(lia) ltac:(lia)).
      pose proof (Z.quot_le_upper_bound (height t) 2 (height t) ltac:(lia) ltac:(lia)).
      lia. }
    rewrite to_int32_small by lia.
    replace (-1 * height t) with (- height t) by lia.
    destruct (qe_move_window_y _ e) as [e1|e1|e1] eqn:Hw; cbn [bind]; try discriminate.
    intros [= <-]. destruct (move_window_y_view _ _ _ Hw) as (Hp & Hx & _ & Hpx).
    do 3 (split; [assumption|]). right; right. exists e1.
    split; [reflexivity|]. split; [reflexivity|].
    cbn. unfold to_uint16, wrap_u. apply Z.mod_small. lia.
  - destruct (Z.geb_spec (cursor_y e + y) (height t - 1)) as [Hbot|Hmid].
    + assert (y = 1) by lia. subst y.
      assert (Hq : 0 <= Z.quot (height t) 2 <= 32767).
      { pose proof (Z.quot_pos (height t) 2 ltac:(lia) ltac:(lia)).
        pose proof (Z.quot_le_upper_bound (height t) 2 (height t) ltac:(lia) ltac:(lia)).
        lia. }
      rewrite to_int32_small by lia.
      replace (1 * height t) with (height t) by lia.
      destruct (qe_move_window_y _ e) as [e1|e1|e1] eqn:Hw; cbn [bind]; try discriminate.
      intros [= <-]. destruct (move_window_y_view _ _ _ Hw) as (Hp & Hx & _ & Hpx).
      do 3 (split; [assumption|]). right; right. exists e1.
      split; [reflexivity|]. split; reflexivity.
    + intros [= <-]. cbn. repeat split. right; left.
      split; [|reflexivity]. unfold to_uint16, wrap_u. apply Z.mod_small. lia.
Qed.

Lemma move_cursor_y_stays_in_view_witness :
  let e := set_cursor_y 3 (qe_init false false five_lines) in
  let e' := state_of (qe_move_cursor_y term_5x10 1 e) in
  (cursor_y e' = 0 /\ page_offset e' = 6) /\
  0 <= cursor_y e' <= height term_5x10 - 2 /\
  page e' = page e /\ cursor_x e' = cursor_x e /\
  page_offset_x e' = page_offset_x e /\
  (e' = e /\ 1 = -1 /\ cursor_y e = 0 /\ page_offset e = 0 \/
   cursor_y e' = cursor_y e + 1 /\ page_offset e' = page_offset e \/
   exists e1, qe_move_window_y (Z.quot (1 * height term_5x10) 2) e = Done e1 /\
     page_offset e' = page_offset e1 /\
     cursor_y e' = if 1 >? 0 then 0 else height term_5x10 - 2).
Proof.
  intros e e'. split; [split; reflexivity|].
  apply (move_cursor_y_stays_in_view term_5x10 1 e e').
  - vm_compute. split; discriminate.
  - left. reflexivity.
  - vm_compute. split; discriminate.
  - reflexivity.
Defined.

(** ** The mode machine and what a session never changes *)

Lemma keeps_session_refl e : keeps_session e e.
Proof. repeat split. Qed.

Lemma keeps_session_trans e1 e2 e3 :
  keeps_session e1 e2 -> keeps_session e2 e3 -> keeps_session e1 e3.
Proof.
  intros (?&?&?&?&?) (?&?&?&?&?). repeat split; congruence.
Qed.

Lemma move_window_y_keeps n e : keeps_session e (state_of (qe_move_window_y n e)).
Proof. unfold qe_move_window_y. destruct (scroll_scan _ _ _); repeat split. Qed.

Lemma move_window_x_keeps n e : keeps_session e (state_of (qe_move_window_x n e)).
Proof. unfold qe_move_window_x. cbn. destruct (_ <? 0); repeat split. Qed.

Lemma move_cursor_x_keeps t x e : keeps_session e (state_of (qe_move_cursor_x t x e)).
Proof. unfold qe_move_cursor_x. repeat case_match; repeat split. Qed.

Lemma move_cursor_y_keeps t y e : keeps_session e (state_of (qe_move_cursor_y t y e)).
Proof.
  unfold qe_move_cursor_y.
  destruct (_ <? 0).
  - destruct (page_offset e =? 0); [apply keeps_session_refl|].
    pose proof (move_window_y_keeps (to_int32 (Z.quot (- height t) 2)) e) as H.
    destruct (qe_move_window_y _ e); exact H.
  - destruct (_ >=? _); [|repeat split].
    pose proof (move_window_y_keeps (to_int32 (Z.quot (height t) 2)) e) as H.
    destruct (qe_move_window_y _ e); exact H.
Qed.

Lemma navigate_keeps t hjkl c e o :
  navigate t hjkl c e = Some o -> keeps_session e (state_of o).
Proof.
  unfold navigate.
  repeat (match goal with |- context [if ?b then _ else _] => destruct b end;
          [intros [= <-];
           first [apply move_window_y_keeps | apply move_window_x_keeps
                 | apply move_cursor_x_keeps | apply move_cursor_y_keeps]|]).
  discriminate.
Qed.

Lemma state_of_bind_done o f :
  (forall e, f e = Done (state_of (f e))) ->
  state_of (bind o f) = match o with Done e => state_of (f e) | _ => state_of o end.
Proof. destruct o; reflexivity. Qed.

Lemma insert_byte_frame t c e :
  let e' := state_of (insert_byte t c e) in
  read_only e' = read_only e /\ mode e' = mode e /\
  length (page e') = length (page e) /\
  search_buf e' = search_buf e /\ search_len e' = search_len e.
Proof.
  unfold insert_byte.
  destruct (qe_get_cursor_byte_position e) as [off|]; [|repeat split].
  unfold byte_store. destruct (_ && _); [|repeat split].
  destruct (byte_at _ (off + 1)) as [b|]; [|cbn; rewrite length_insert; repeat split].
  destruct (b =? NL); [cbn; rewrite length_insert; repeat split|].
  pose proof (move_cursor_x_keeps t 1
    (set_page (<[Z.to_nat off := to_uint8 c]> (page e)) e)) as (Hp & Hr & Hm & Hb & Hl).
  destruct (qe_move_cursor_x _ _ _); cbn in *; rewrite Hp, length_insert; repeat split; assumption.
Qed.

Lemma store_search_frame idx v e :
  let e' := state_of (store_search idx v e) in
  page e' = page e /\ read_only e' = read_only e /\ mode e' = mode e /\
  search_len e' = search_len e.
Proof. unfold store_search. destruct (byte_store _ _ _); repeat split. Qed.

Lemma search_type_frame c e :
  let e' := state_of (search_type c e) in
  page e' = page e /\ read_only e' = read_only e /\ mode e' = mode e.
Proof.
  unfold search_type. destruct (_ >=? _); [repeat split|].
  destruct (negb _).
  - pose proof (store_search_frame (search_len e) c e) as (Hp & Hr & Hm & Hl).
    destruct (store_search (search_len e) c e) as [e1|e1|e1]; cbn in *; auto.
    match goal with |- context [store_search ?i ?v ?x] =>
      pose proof (store_search_frame i v x) as (Hp2 & Hr2 & Hm2 & _);
      destruct (store_search i v x) end; cbn in *; repeat split; congruence.
  - match goal with |- context [store_search ?i ?v ?x] =>
      pose proof (store_search_frame i v x) as (Hp2 & Hr2 & Hm2 & _);
      destruct (store_search i v x) end;
      cbn in *; destruct (_ =? 0); cbn in *; repeat split; congruence.
Qed.

Lemma search_confirm_frame e :
  let e' := state_of (search_confirm e) in
  page e' = page e /\ read_only e' = read_only e /\ mode e' = MODE_NORMAL.
Proof.
  unfold search_confirm.
  destruct (qe_get_cursor_byte_position _); [|repeat split].
  destruct (qe_search _ _) as [r|]; [|repeat split].
  destruct (r =? -1); [repeat split|].
  destruct (match_line_start _ _ _); repeat split.
Qed.

(** X10.  A key that is handled without leaving the program changes the mode
    only along four edges: ['i'] from Normal to Insert (never in a read-only
    session), ['/'] from Normal to Search, Escape from Insert to Normal, and
    Escape or Enter from Search to Normal.  Every other key keeps the mode. *)
Theorem mode_transitions t c e e' :
  qe_process_key t c e = Done e' ->
  mode e' = mode e \/
  (mode e = MODE_NORMAL /\ c = key "i" /\ read_only e = false /\ mode e' = MODE_INSERT) \/
  (mode e = MODE_NORMAL /\ c = key "/" /\ mode e' = MODE_SEARCH) \/
  (mode e = MODE_INSERT /\ c = ESC /\ mode e' = MODE_NORMAL) \/
  (mode e = MODE_SEARCH /\ (c = ESC \/ c = ENTER) /\ mode e' = MODE_NORMAL).
Proof.
  unfold qe_process_key. destruct (mode e) eqn:Hmode.
  - unfold process_normal.
    destruct (_ || _); [discriminate|].
    destruct (Z.eqb_spec c (key "i")) as [->|_].
    { intros [= <-]. destruct (read_only e) eqn:Hro; [left; assumption|].
      right; left. repeat split. }
    destruct (Z.eqb_spec c (key "/")) as [->|_].
    { intros [= <-]. right; right; left. repeat split. }
    destruct (c =? key "r"); [intros [= <-]; left; assumption|].
    destruct (c =? key "w"); [intros [= <-]; left; assumption|].
    destruct (navigate t true c e) as [o|] eqn:Hnav; [|intros [= <-]; left; assumption].
    intros ->. apply navigate_keeps in Hnav as (_ & _ & Hm & _). left. cbn in Hm. congruence.
  - unfold process_insert.
    destruct (c =? CTRL (key "c")); [discriminate|].
    destruct (Z.eqb_spec c ESC) as [->|_].
    { intros [= <-]. right; right; right; left. repeat split. }
    destruct (navigate t false c e) as [o|] eqn:Hnav.
    + intros ->. apply navigate_keeps in Hnav as (_ & _ & Hm & _). left. cbn in Hm. congruence.
    + intros Hd. pose proof (insert_byte_frame t c e) as (_ & Hm & _).
      rewrite Hd in Hm. left. cbn in Hm. congruence.
  - unfold process_search.
    destruct (c =? CTRL (key "c")); [discriminate|].
    destruct (Z.eqb_spec c ESC) as [->|_].
    { intros [= <-]. right; right; right; right. repeat split. left. reflexivity. }
    destruct (Z.eqb_spec c ENTER) as [->|_].
    { intros Hd. pose proof (search_confirm_frame e) as (_ & _ & Hm).
      rewrite Hd in Hm. right; right; right; right. repeat split; [right; reflexivity | exact Hm]. }
    intros Hd. pose proof (search_type_frame c e) as (_ & _ & Hm).
    rewrite Hd in Hm. left. cbn in Hm. congruence.
Qed.

Lemma mode_transitions_witness :
  let e := qe_init false false two_lines in
  let c := key "i" in
  let e' := state_of (qe_process_key term_5x10 c e) in
  mode e' = mode e \/
  (mode e = MODE_NORMAL /\ c = key "i" /\ read_only e = false /\ mode e' = MODE_INSERT) \/
  (mode e = MODE_NORMAL /\ c = key "/" /\ mode e' = MODE_SEARCH) \/
  (mode e = MODE_INSERT /\ c = ESC /\ mode e' = MODE_NORMAL) \/
  (mode e = MODE_SEARCH /\ (c = ESC \/ c = ENTER) /\ mode e' = MODE_NORMAL).
Proof.
  intros e c e'. apply (mode_transitions term_5x10 c e e'). reflexivity.
Defined.

Lemma process_key_frame t c e :
  let e' := state_of (qe_process_key t c e) in
  read_only e' = read_only e /\
  length (page e') = length (page e) /\
  (mode e <> MODE_INSERT -> page e' = page e) /\
  (read_only e = true -> mode e <> MODE_INSERT -> mode e' <> MODE_INSERT).
Proof.
  unfold qe_process_key. destruct (mode e) eqn:Hmode.
  - unfold process_normal.
    destruct (_ || _); [cbn; rewrite Hmode; repeat split; discriminate|].
    destruct (c =? key "i").
    { cbn. destruct (read_only e) eqn:Hro; cbn; rewrite ?Hmode, ?Hro;
        repeat split; discriminate. }
    destruct (c =? key "/"); [cbn; repeat split; discriminate|].
    destruct (c =? key "r"); [cbn; rewrite Hmode; repeat split; discriminate|].
    destruct (c =? key "w"); [cbn; rewrite Hmode; repeat split; discriminate|].
    destruct (navigate t true c e) as [o|] eqn:Hnav;
      [|cbn; rewrite Hmode; repeat split; discriminate].
    apply navigate_keeps in Hnav as (Hp & Hr & Hm & _).
    cbn. rewrite Hp, Hr, Hm, Hmode. repeat split; discriminate.
  - unfold process_insert.
    destruct (c =? CTRL (key "c")); [cbn; repeat split; congruence|].
    destruct (c =? ESC); [cbn; repeat split; congruence|].
    destruct (navigate t false c e) as [o|] eqn:Hnav.
    + apply navigate_keeps in Hnav as (Hp & Hr & Hm & _).
      cbn. rewrite Hp, Hr. repeat split; congruence.
    + pose proof (insert_byte_frame t c e) as (Hr & Hm & Hl & _).
      cbn in *. repeat split; congruence.
  - unfold process_search.
    destruct (c =? CTRL (key "c")); [cbn; rewrite Hmode; repeat split; discriminate|].
    destruct (c =? ESC); [cbn; repeat split; discriminate|].
    destruct (c =? ENTER).
    + pose proof (search_confirm_frame e) as (Hp & Hr & Hm).
      cbn in *. rewrite Hp, Hr, Hm. repeat split; discriminate.
    + pose proof (search_type_frame c e) as (Hp & Hr & Hm).
      cbn in *. rewrite Hp, Hr, Hm, Hmode. repeat split; discriminate.
Qed.

Lemma main_step_frame t c e :
  let e' := state_of (main_step t c e) in
  read_only e' = read_only e /\
  length (page e') = length (page e) /\
  (mode e <> MODE_INSERT -> page e' = page e) /\
  (read_only e = true -> mode e <> MODE_INSERT -> mode e' <> MODE_INSERT).
Proof.
  pose proof (process_key_frame t c e) as H. unfold main_step.
  destruct (qe_process_key t c e) as [e1|e1|e1]; cbn in *; try exact H.
  destruct (_ && _); exact H.
Qed.

Lemma run_keys_invariant (P : editor -> Prop) t :
  (forall c e, P e -> P (state_of (main_step t c e))) ->
  forall keys e, P e -> P (state_of (run_keys t keys e)).
Proof.
  intros Hstep. induction keys as [|c keys IH]; intros e He; [exact He|].
  cbn [run_keys]. specialize (Hstep c e He).
  destruct (main_step t c e) as [e1|e1|e1]; cbn in *; auto.
Qed.

(** X11.  No sequence of keys changes the size of the file: whatever is
    typed, in whatever mode, the mapping is as long at the end of the session
    (or where it exits or crashes) as at its start. *)
Theorem file_size_never_changes t keys e :
  st_size (state_of (run_keys t keys e)) = st_size e.
Proof.
  unfold st_size. f_equal.
  apply (run_keys_invariant (fun e' => length (page e') = length (page e)) t);
    [|reflexivity].
  intros c e1 H1. destruct (main_step_frame t c e1) as (_ & Hl & _). congruence.
Qed.

(** X12.  A read-only session that does not start in Insert mode never
    enters it and never writes the file: after any sequence of keys the bytes
    are those it started with. *)
Theorem read_only_file_never_written t keys e :
  read_only e = true -> mode e <> MODE_INSERT ->
  let e' := state_of (run_keys t keys e) in
  page e' = page e /\ mode e' <> MODE_INSERT /\ read_only e' = true.
Proof.
  intros Hro Hmode.
  apply (run_keys_invariant
    (fun e' => page e' = page e /\ mode e' <> MODE_INSERT /\ read_only e' = true) t);
    [|repeat split; assumption].
  intros c e1 (Hp & Hm & Hr).
  destruct (main_step_frame t c e1) as (Hr' & _ & Hp' & Hm').
  repeat split; [rewrite Hp'; assumption | auto | congruence].
Qed.

Lemma read_only_file_never_written_witness :
  let e := qe_init true false two_lines in
  let e' := state_of (run_keys term_5x10 [key "i"; key "x"; key "j"; key "/"] e) in
  page e' = page e /\ mode e' <> MODE_INSERT /\ read_only e' = true.
Proof.
  intros e.
  apply (read_only_file_never_written term_5x10 [key "i"; key "x"; key "j"; key "/"] e).
  - reflexivity.
  - discriminate.
Defined.

(** ** Search mode: typing the pattern and confirming it *)

Lemma store_search_in_range idx v e :
  0 <= idx < Z.of_nat (length (search_buf e)) ->
  store_search idx v e =
  Done (set_search_buf (<[Z.to_nat idx := to_uint8 v]> (search_buf e)) e).
Proof.
  intros H. unfold store_search, byte_store.
  rewrite (proj2 (andb_true_iff _ _)); [reflexivity|].
  rewrite Z.leb_le, Z.ltb_lt. lia.
Qed.

Lemma search_type_appends c e :
  length (search_buf e) = 64%nat -> 0 <= search_len e <= 62 -> c <> BACKSPACE ->
  exists e', search_type c e = Done e' /\
    search_len e' = search_len e + 1 /\
    length (search_buf e') = 64%nat /\
    search_pattern e' = search_pattern e ++ [to_uint8 c] /\
    byte_at (search_buf e') (search_len e') = Some 0.
Proof.
  intros Hbuf Hlen Hc. unfold search_type. rewrite Hbuf.
  destruct (Z.geb_spec (search_len e) (Z.of_nat 64 - 1)); [lia|].
  destruct (Z.eqb_spec c BACKSPACE); [contradiction|]. cbn [negb].
  rewrite store_search_in_range by (rewrite Hbuf; lia). cbn [bind].
  rewrite store_search_in_range
    by (cbn; rewrite length_insert, Hbuf; unfold to_size_t, wrap_u;
        rewrite Z.mod_small; lia).
  cbn [bind search_len search_buf set_search_len set_search_buf].
  unfold to_size_t, wrap_u. rewrite Z.mod_small by lia.
  eexists. split; [reflexivity|]. cbn.
  assert (Hn : (Z.to_nat (search_len e) < 64)%nat) by lia.
  split; [reflexivity|]. split; [rewrite !length_insert; assumption|]. split.
  - unfold search_pattern. cbn.
    replace (Z.to_nat (search_len e + 1)) with (S (Z.to_nat (search_len e))) by lia.
    rewrite take_insert_ge by lia.
    rewrite (take_S_r _ _ (to_uint8 c))
      by (apply list_lookup_insert_eq; lia).
    rewrite take_insert_ge by lia. reflexivity.
  - unfold byte_at. rewrite (proj2 (Z.ltb_ge _ 0)) by lia.
    replace (to_uint8 0) with 0 by reflexivity.
    apply list_lookup_insert_eq. rewrite length_insert. lia.
Qed.

Lemma search_type_backspace e :
  length (search_buf e) = 64%nat -> 1 <= search_len e <= 62 ->
  exists e', search_type BACKSPACE e = Done e' /\
    search_len e' = search_len e - 1 /\
    length (search_buf e') = 64%nat /\
    search_pattern e' = take (Z.to_nat (search_len e - 1)) (search_pattern e) /\
    byte_at (search_buf e') (search_len e') = Some 0.
Proof.
  intros Hbuf Hlen. unfold search_type. rewrite Hbuf.
  destruct (Z.geb_spec (search_len e) (Z.of_nat 64 - 1)); [lia|].
  cbn [Z.eqb BACKSPACE Pos.eqb negb].
  assert (Hdec : to_size_t (search_len e - 1) = search_len e - 1)
    by (unfold to_size_t, wrap_u; apply Z.mod_small; lia).
  rewrite Hdec. cbn [search_len set_search_len].
  assert (Hn : (Z.to_nat (search_len e - 1) < 64)%nat) by lia.
  destruct (Z.eqb_spec (search_len e - 1) 0) as [Hz|Hz];
    (rewrite store_search_in_range by (cbn; rewrite Hbuf; lia);
     cbn [bind]; eexists; split; [reflexivity|]; cbn;
     split; [lia|]; split; [rewrite length_insert; assumption|]; split;
     [ unfold search_pattern; cbn; rewrite take_insert_ge by lia;
       rewrite take_take; f_equal; lia
     | unfold byte_at; rewrite ?(proj2 (Z.ltb_ge _ 0)) by lia;
       apply list_lookup_insert_eq; lia ]).
Qed.

(** X13.  With at most 61 bytes in the 64-byte search buffer, typing a byte
    other than Backspace appends it to the pattern, and a Backspace typed next
    restores the pattern and its length exactly. *)
Theorem type_then_backspace_restores_pattern c e :
  length (search_buf e) = 64%nat -> 0 <= search_len e <= 61 -> c <> BACKSPACE ->
  exists e1 e2,
    search_type c e = Done e1 /\
    search_pattern e1 = search_pattern e ++ [to_uint8 c] /\
    search_type BACKSPACE e1 = Done e2 /\
    search_pattern e2 = search_pattern e /\ search_len e2 = search_len e.
Proof.
  intros Hbuf Hlen Hc.
  destruct (search_type_appends c e Hbuf ltac:(lia) Hc) as (e1 & H1 & Hl1 & Hb1 & Hp1 & _).
  destruct (search_type_backspace e1 Hb1 ltac:(lia)) as (e2 & H2 & Hl2 & _ & Hp2 & _).
  exists e1, e2. repeat split; try assumption; [|lia].
  rewrite Hp2, Hp1, Hl1. apply take_app_length'.
  unfold search_pattern. rewrite length_take. lia.
Qed.

Lemma type_then_backspace_restores_pattern_witness :
  let e := with_pattern (bytes_of "kl") (qe_init false false two_lines) in
  exists e1 e2,
    search_type (key "m") e = Done e1 /\
    search_pattern e1 = search_pattern e ++ [to_uint8 (key "m")] /\
    search_type BACKSPACE e1 = Done e2 /\
    search_pattern e2 = search_pattern e /\ search_len e2 = search_len e.
Proof.
  intros e. apply (type_then_backspace_restores_pattern (key "m") e).
  - reflexivity.
  - vm_compute. split; discriminate.
  - vm_compute. discriminate.
Defined.






(** ** The input decoder *)

Lemma lookahead_suffix input o rest :
  lookahead input = (o, rest) ->
  exists used, input = used ++ rest /\ (length used <= 1)%nat.
Proof.
  destruct input as [|[b| | |] input]; intros [= <- <-];
    first [ exists []; split; [reflexivity | simpl; lia]
          | eexists [_]; split; [reflexivity | simpl; lia] ].
Qed.

Lemma csi_tilde_range c : csi_tilde c = ESC \/ special_key (csi_tilde c).
Proof. unfold csi_tilde, special_key. repeat case_match; (left; reflexivity) || (right; vm_compute; split; discriminate). Qed.

Lemma csi_letter_range c : csi_letter c = ESC \/ special_key (csi_letter c).
Proof. unfold csi_letter, special_key. repeat case_match; (left; reflexivity) || (right; vm_compute; split; discriminate). Qed.

Lemma ss3_letter_range c : ss3_letter c = ESC \/ special_key (ss3_letter c).
Proof. unfold ss3_letter, special_key. repeat case_match; (left; reflexivity) || (right; vm_compute; split; discriminate). Qed.

Lemma decode_escape_spec input k rest :
  decode_escape input = (k, rest) ->
  (k = ESC \/ special_key k) /\
  exists used, input = used ++ rest /\ (length used <= 3)%nat.
Proof.
  unfold decode_escape.
  destruct (lookahead input) as [[c1|] rest1] eqn:H1;
    apply lookahead_suffix in H1 as (u1 & -> & Hu1).
  2:{ intros [= <- <-]. split; [left; reflexivity|]. exists u1. split; [reflexivity | lia]. }
  destruct (lookahead rest1) as [[c2|] rest2] eqn:H2;
    apply lookahead_suffix in H2 as (u2 & -> & Hu2).
  2:{ intros [= <- <-]. split; [left; reflexivity|]. exists (u1 ++ u2).
      rewrite length_app, <- app_assoc. split; [reflexivity | lia]. }
  destruct (c1 =? key "[").
  - destruct (_ && _).
    + destruct (lookahead rest2) as [[c3|] rest3] eqn:H3;
        apply lookahead_suffix in H3 as (u3 & -> & Hu3); intros [= <- <-].
      * split; [destruct (c3 =? key "~"); [apply csi_tilde_range | left; reflexivity]|].
        exists (u1 ++ u2 ++ u3). rewrite !length_app, <- !app_assoc. split; [reflexivity | lia].
      * split; [left; reflexivity|].
        exists (u1 ++ u2 ++ u3). rewrite !length_app, <- !app_assoc. split; [reflexivity | lia].
    + intros [= <- <-]. split; [apply csi_letter_range|].
      exists (u1 ++ u2). rewrite length_app, <- app_assoc. split; [reflexivity | lia].
  - destruct (c1 =? key "O"); intros [= <- <-];
      (split; [first [apply ss3_letter_range | left; reflexivity]|]);
      exists (u1 ++ u2); rewrite length_app, <- app_assoc; (split; [reflexivity | lia]).
Qed.

(** The decoder returns 0 (interrupted wait), the value of one byte, or one
    of the nine special key codes, which lie above every byte value; it
    consumes the waiting reads, the first byte and at most three more reads. *)
(** X15.  When [qe_readkey] returns a key, it is a [char] value (-128..255)
    or one of the nine special keys HOME..ARROW_LEFT, and the reads it made
    are: any number that delivered nothing, then between one and four more
    (the byte, or a whole escape sequence); the rest of the input is left
    unread. *)
Theorem readkey_result sgn input k rest :
  Forall read_is_byte input ->
  qe_readkey sgn input = Some (KeyCode k, rest) ->
  (-128 <= k < 256 \/ special_key k) /\
  exists waits used,
    input = waits ++ used ++ rest /\
    Forall (fun r => r = ReadNone) waits /\ (1 <= length used <= 4)%nat.
Proof.
  induction input as [|r input IH]; intros Hbytes; [discriminate|].
  apply Forall_cons in Hbytes as [Hr Hbytes]. cbn [qe_readkey].
  destruct r as [b| | |].
  - destruct (b =? ESC).
    + destruct (decode_escape input) as [k' rest'] eqn:Hd. intros [= <- <-].
      apply decode_escape_spec in Hd as [Hk (used & -> & Hu)]. split.
      * destruct Hk as [->|Hk]; [left; unfold ESC; lia | right; assumption].
      * exists [], (ReadByte b :: used). split; [reflexivity|].
        split; [constructor | simpl; lia].
    + intros [= <- <-]. split.
      * left. cbn in Hr. unfold char_to_int. destruct (_ && _) eqn:Hs; [|lia].
        apply andb_true_iff in Hs as [_ Hs]. apply Z.leb_le in Hs. lia.
      * exists [], [ReadByte b]. split; [reflexivity|]. split; [constructor | simpl; lia].
  - intros H. destruct (IH Hbytes H) as [Hk (waits & used & -> & Hw & Hu)].
    split; [assumption|]. exists (ReadNone :: waits), used.
    split; [reflexivity|]. split; [constructor; auto | assumption].
  - intros [= <- <-]. split; [left; lia|].
    exists [], [ReadSignal]. split; [reflexivity|]. split; [constructor | simpl; lia].
  - discriminate.
Qed.

Lemma readkey_result_witness :
  let input := [ReadNone; ReadByte ESC; ReadByte (key "["); ReadByte (key "5");
                ReadByte (key "~"); ReadByte (key "a")] in
  let rest := [ReadByte (key "a")] in
  (-128 <= PGUP < 256 \/ special_key PGUP) /\
  exists waits used,
    input = waits ++ used ++ rest /\
    Forall (fun r => r = ReadNone) waits /\ (1 <= length used <= 4)%nat.
Proof.
  intros input rest. apply (readkey_result true input PGUP rest).
  - repeat (constructor; [first [exact I | vm_compute; split; [discriminate | reflexivity]]|]).
    constructor.
  - reflexivity.
Defined.

Lemma insert_mode_command_values c :
  insert_mode_command c =
  (c =? 3) || (c =? 27) || (c =? 515) || (c =? 4) || (c =? 514) || (c =? 21)
  || (c =? 517) || (c =? 516) || (c =? 519) || (c =? 518) || (c =? 8) || (c =? 12).
Proof. reflexivity. Qed.

Lemma char_to_int_not_command sgn b :
  0 <= b < 256 -> insert_mode_command b = false ->
  insert_mode_command (char_to_int sgn b) = false /\
  to_uint8 (char_to_int sgn b) = b.
Proof.
  intros Hb Hcmd. unfold char_to_int.
  destruct (sgn && (128 <=? b)) eqn:Hs.
  - apply andb_true_iff in Hs as [_ Hs]. apply Z.leb_le in Hs. split.
    + rewrite insert_mode_command_values.
      repeat match goal with |- context [?x =? ?y] =>
        destruct (Z.eqb_spec x y); [lia|] end. reflexivity.
    + unfold to_uint8, wrap_u. replace (b - 256) with (b + (-1) * 2 ^ 8) by lia.
      rewrite Z.mod_add by lia. apply Z.mod_small. lia.
  - split; [assumption|]. unfold to_uint8, wrap_u. apply Z.mod_small. lia.
Qed.

Lemma insert_byte_uint8 t c e : insert_byte t (to_uint8 c) e = insert_byte t c e.
Proof.
  unfold insert_byte, byte_store.
  replace (to_uint8 (to_uint8 c)) with (to_uint8 c); [reflexivity|].
  unfold to_uint8, wrap_u. symmetry. apply Z.mod_mod. lia.
Qed.

(** X16.  In Insert mode a byte read from the terminal that is not one of the
    mode's command keys is handled alike whether [char] is signed or
    unsigned.  With a signed [char] a byte of 128 or more becomes a negative
    key code; that code is no command key either and the store truncates it
    back to the byte, so [qe_process_key] gives the same outcome for both key
    codes: that of the store of the byte in the default case. *)
Theorem typed_byte_signedness t b rest e :
  0 <= b < 256 -> insert_mode_command b = false ->
  mode e = MODE_INSERT ->
  exists k,
    qe_readkey true (ReadByte b :: rest) = Some (KeyCode k, rest) /\
    qe_readkey false (ReadByte b :: rest) = Some (KeyCode b, rest) /\
    (128 <= b -> k = b - 256) /\ to_uint8 k = b /\
    qe_process_key t k e = qe_process_key t b e /\
    qe_process_key t b e = insert_byte t b e.
Proof.
  intros Hb Hcmd Hmode.
  destruct (char_to_int_not_command true b Hb Hcmd) as [Hk Hu].
  assert (Hesc : (b =? ESC) = false).
  { destruct (Z.eqb_spec b ESC) as [->|]; [discriminate Hcmd | reflexivity]. }
  exists (char_to_int true b). split; [cbn [qe_readkey]; rewrite Hesc; reflexivity|].
  split; [cbn [qe_readkey]; rewrite Hesc; reflexivity|].
  split.
  { intros Hhigh. unfold char_to_int.
    rewrite (proj2 (Z.leb_le 128 b)) by lia. reflexivity. }
  split; [exact Hu|].
  unfold qe_process_key. rewrite Hmode, !process_insert_default by assumption.
  split; [|reflexivity].
  rewrite <- (insert_byte_uint8 t (char_to_int true b) e), Hu. reflexivity.
Qed.

Lemma typed_byte_signedness_witness :
  let e := set_mode MODE_INSERT (qe_init false false two_lines) in
  exists k,
    qe_readkey true [ReadByte 200] = Some (KeyCode k, []) /\
    qe_readkey false [ReadByte 200] = Some (KeyCode 200, []) /\
    (128 <= 200 -> k = 200 - 256) /\ to_uint8 k = 200 /\
    qe_process_key term_5x10 k e = qe_process_key term_5x10 200 e /\
    qe_process_key term_5x10 200 e = insert_byte term_5x10 200 e.
Proof.
  intros e. apply (typed_byte_signedness term_5x10 200 [] e).
  - lia.
  - reflexivity.
  - reflexivity.
Defined.

(** ** Rendering *)

Section Rendering.
Variable pg : list Z.

Lemma mem_range_cons off k c :
  byte_at pg off = Some c -> 0 <= k ->
  mem_range pg off (k + 1) = c :: mem_range pg (off + 1) k.
Proof.
  intros Hc Hk. pose proof (byte_at_Some _ _ _ Hc) as Hr.
  unfold byte_at in Hc. rewrite (proj2 (Z.ltb_ge off 0)) in Hc by lia.
  unfold mem_range. rewrite (drop_S _ _ _ Hc).
  replace (Z.to_nat (k + 1)) with (S (Z.to_nat k)) by lia.
  replace (Z.to_nat (off + 1)) with (S (Z.to_nat off)) by lia. reflexivity.
Qed.

Lemma mem_range_app off k1 k2 :
  0 <= off -> 0 <= k1 -> 0 <= k2 ->
  mem_range pg off (k1 + k2) = mem_range pg off k1 ++ mem_range pg (off + k1) k2.
Proof.
  intros Ho H1 H2. unfold mem_range.
  replace (Z.to_nat (k1 + k2)) with (Z.to_nat k1 + Z.to_nat k2)%nat by lia.
  rewrite <- take_take_drop, drop_drop.
  replace (Z.to_nat (off + k1)) with (Z.to_nat off + Z.to_nat k1)%nat by lia.
  reflexivity.
Qed.

Lemma shown_app off k1 k2 :
  0 <= off -> 0 <= k1 -> 0 <= k2 ->
  shown pg off (k1 + k2) = shown pg off k1 ++ shown pg (off + k1) k2.
Proof.
  intros Ho H1 H2. unfold shown.
  rewrite mem_range_app, List.filter_app, map_app by assumption. reflexivity.
Qed.

Lemma shown_nil off : shown pg off 0 = [].
Proof. reflexivity. Qed.

Lemma shown_one off c :
  byte_at pg off = Some c ->
  shown pg off 1 = if c =? NL then [] else [print_char c].
Proof.
  intros Hc. unfold shown. change 1 with (0 + 1). rewrite (mem_range_cons off 0 c Hc) by lia.
  cbn. destruct (c =? NL); reflexivity.
Qed.

(** The columns loop paints the bytes it passes, newlines left out, and never
    the last byte of the file. *)
Lemma draw_cells_spec : forall cols offset cells e,
  0 <= offset < Z.of_nat (length pg) ->
  draw_cells cols pg offset = (cells, e) ->
  (length cells <= cols)%nat /\
  exists k, 0 <= k /\ cells = shown pg offset k /\
    match e with
    | RowFull o => o = offset + k /\ o < Z.of_nat (length pg) /\ length cells = cols
    | RowNewline o => o = offset + k /\ o < Z.of_nat (length pg)
    | RowFileEnd => offset + k = Z.of_nat (length pg) - 1
    | RowBadRead => False
    end.
Proof.
  induction cols as [|cols IH]; intros offset cells e Hoff; cbn [draw_cells].
  - intros [= <- <-]. split; [simpl; lia|]. exists 0. repeat split; lia.
  - destruct (byte_at_in_file pg offset Hoff) as [c Hc]. rewrite Hc.
    destruct (Z.geb_spec (offset + 1) (Z.of_nat (length pg))).
    { intros [= <- <-]. split; [simpl; lia|]. exists 0. repeat split; lia. }
    destruct (c =? NL) eqn:Hnl.
    { intros [= <- <-]. split; [simpl; lia|]. exists 1.
      rewrite (shown_one _ _ Hc), Hnl. repeat split; lia. }
    destruct (draw_cells cols pg (offset + 1)) as [cells' e'] eqn:Hd.
    intros [= <- <-]. apply IH in Hd as (Hlen & k & Hk & -> & He); [|lia].
    split; [simpl; lia|]. exists (1 + k). split; [lia|]. split.
    + rewrite shown_app by lia. rewrite (shown_one _ _ Hc), Hnl. reflexivity.
    + destruct e'; simpl; lia.
Qed.

Lemma draw_wrap_rows_spec cols : forall n offset y,
  0 <= offset < Z.of_nat (length pg) ->
  let d := draw_wrap_rows n cols pg offset y in
  in_bounds d = true /\
  Forall (fun r => (length r <= cols)%nat) (painted d) /\
  (length (painted d) = n /\ last_row d = y + Z.of_nat n \/
   (1 <= length (painted d) <= n)%nat /\ last_row d = y + Z.of_nat (length (painted d)) - 1) /\
  exists k, 0 <= k /\ offset + k <= Z.of_nat (length pg) - 1 /\
    concat (painted d) = shown pg offset k.
Proof.
  induction n as [|n IH]; intros offset y Hoff; cbn [draw_wrap_rows].
  - cbn. repeat split; [constructor | left; split; [reflexivity | lia] |].
    exists 0. repeat split; lia.
  - destruct (draw_cells cols pg offset) as [cells e] eqn:Hd.
    apply draw_cells_spec in Hd as (Hlen & k & Hk & -> & He); [|assumption].
    assert (Hnext : forall o, o = offset + k -> o < Z.of_nat (length pg) ->
      let d := draw_wrap_rows n cols pg o (y + 1) in
      let d' := mkDrawn (shown pg offset k :: painted d) (last_row d) (in_bounds d) in
      in_bounds d' = true /\
      Forall (fun r => (length r <= cols)%nat) (painted d') /\
      (length (painted d') = S n /\ last_row d' = y + Z.of_nat (S n) \/
       (1 <= length (painted d') <= S n)%nat /\
       last_row d' = y + Z.of_nat (length (painted d')) - 1) /\
      exists k', 0 <= k' /\ offset + k' <= Z.of_nat (length pg) - 1 /\
        concat (painted d') = shown pg offset k').
    { intros o -> Ho. specialize (IH (offset + k) (y + 1) ltac:(lia)).
      cbn zeta in IH. destruct IH as (Hb & Hw & Hcnt & k' & Hk' & Hle & Hc).
      cbn. repeat split; [assumption | constructor; assumption | |].
      - destruct Hcnt as [[Hl Hy]|[Hl Hy]]; [left | right]; rewrite ?Hl; split; lia.
      - exists (k + k'). rewrite Hc, shown_app by lia. repeat split; lia. }
    destruct e as [o|o| |]; [| | |contradiction].
    + destruct He as (Ho & Hlt & _). exact (Hnext o Ho Hlt).
    + destruct He as (Ho & Hlt). exact (Hnext o Ho Hlt).
    + cbn. repeat split; [constructor; [assumption | constructor] | right; split; lia |].
      exists k. rewrite app_nil_r. repeat split; lia.
Qed.
End Rendering.

(** X17.  With the view inside the file, the wrap layout reads only the file,
    paints at most [height - 1] rows of at most [width - 1] cells, and what it
    paints is, in order, a run of the file's bytes from [page_offset] with the
    newlines left out; the run never includes the last byte of the file. *)
Theorem draw_wrap_paints_file_bytes t e :
  0 <= page_offset e < st_size e ->
  let d := qe_draw_wrap t e in
  in_bounds d = true /\
  (length (painted d) <= Z.to_nat (height t - 1))%nat /\
  Forall (fun r => (length r <= Z.to_nat (width t - 1))%nat) (painted d) /\
  0 <= last_row d <= Z.of_nat (Z.to_nat (height t - 1)) /\
  exists k, 0 <= k /\ page_offset e + k <= st_size e - 1 /\
    concat (painted d) = shown (page e) (page_offset e) k.
Proof.
  intros Hpo. unfold qe_draw_wrap, st_size in *.
  pose proof (draw_wrap_rows_spec (page e) (Z.to_nat (width t - 1))
                (Z.to_nat (height t - 1)) (page_offset e) 0 Hpo) as H.
  cbn zeta in *. destruct H as (Hb & Hw & Hcnt & Hk).
  repeat split; try assumption; destruct Hcnt as [[Hl Hy]|[Hl Hy]]; lia.
Qed.

Lemma draw_wrap_paints_file_bytes_witness :
  let e := qe_init false true two_lines in
  let d := qe_draw_wrap term_5x10 e in
  in_bounds d = true /\
  (length (painted d) <= Z.to_nat (height term_5x10 - 1))%nat /\
  Forall (fun r => (length r <= Z.to_nat (width term_5x10 - 1))%nat) (painted d) /\
  0 <= last_row d <= Z.of_nat (Z.to_nat (height term_5x10 - 1)) /\
  exists k, 0 <= k /\ page_offset e + k <= st_size e - 1 /\
    concat (painted d) = shown (page e) (page_offset e) k.
Proof.
  intros e. apply (draw_wrap_paints_file_bytes term_5x10 e).
  vm_compute. split; [discriminate | reflexivity].
Defined.

Lemma row_count_next n y cells d :
  row_count_ok n (y + 1) d ->
  row_count_ok (S n) y (mkDrawn (cells :: painted d) (last_row d) (in_bounds d)).
Proof.
  unfold row_count_ok. cbn. intros [[Hl Hy]|[Hl Hy]]; [left | right]; rewrite ?Hl; split; lia.
Qed.

Lemma row_count_stop n y cells b :
  row_count_ok (S n) y (mkDrawn [cells] y b).
Proof. unfold row_count_ok. cbn. right. split; lia. Qed.

Lemma draw_wrap_rows_count cols pg : forall n offset y,
  row_count_ok n y (draw_wrap_rows n cols pg offset y).
Proof.
  induction n as [|n IH]; intros offset y; cbn [draw_wrap_rows].
  - left. cbn. split; [reflexivity | lia].
  - destruct (draw_cells cols pg offset) as [cells [o|o| |]];
      first [apply row_count_next, IH | apply row_count_stop].
Qed.

Lemma draw_nowrap_rows_count cols pg pox : forall n offset y,
  row_count_ok n y (draw_nowrap_rows n cols pg pox offset y).
Proof.
  induction n as [|n IH]; intros offset y; cbn [draw_nowrap_rows].
  - left. cbn. split; [reflexivity | lia].
  - destruct (nowrap_row cols pg pox offset) as [cells [o|o| |]];
      first [apply row_count_next, IH | apply row_count_stop].
Qed.

(** X18.  In either layout a redraw emits [height - 1] lines above the status
    line when the content fills the view, and one line more when the file
    ends inside it: the row on which the file ended is counted again by the
    marker loop. *)
Theorem frame_line_count t e :
  let f := fst (qe_draw t e) in
  let n := Z.to_nat (height t - 1) in
  length (painted (content f)) = n /\ markers f = O /\ frame_lines f = n \/
  (length (painted (content f)) <= n)%nat /\ last_row (content f) < Z.of_nat n /\
  frame_lines f = S n.
Proof.
  cbn zeta. unfold qe_draw, frame_lines. cbn [fst content markers].
  set (d := if wrap e then _ else _).
  assert (Hc : row_count_ok (Z.to_nat (height t - 1)) 0 d).
  { subst d. destruct (wrap e); [apply draw_wrap_rows_count | apply draw_nowrap_rows_count]. }
  destruct Hc as [[Hl Hy]|[Hl Hy]]; [left | right]; rewrite Hy; repeat split; lia.
Qed.

Section NoWrap.
Variable pg : list Z.

Lemma range_ok_true off cnt :
  0 <= off -> 0 <= cnt -> off + cnt <= Z.of_nat (length pg) ->
  range_ok pg off cnt = true.
Proof.
  intros. unfold range_ok. rewrite !andb_true_iff, !Z.leb_le. lia.
Qed.

Lemma nowrap_row_spec cols pox offset cells e :
  0 <= offset -> 0 <= pox ->
  nowrap_row cols pg pox offset = (cells, e) ->
  (length cells <= cols)%nat /\
  match e with
  | RowFull _ | RowBadRead => False
  | RowNewline o => 0 <= o
  | RowFileEnd => True
  end.
Proof.
  intros Hoff Hpox. unfold nowrap_row.
  destruct (Z.geb_spec (offset + pox) (Z.of_nat (length pg))).
  { intros [= <- <-]. split; [simpl; lia | exact I]. }
  destruct (Z.ltb_spec pox 0); [lia|].
  rewrite range_ok_true by lia.
  destruct (memchr pg offset NL pox).
  { intros [= <- <-]. split; [simpl; lia | assumption]. }
  destruct (draw_cells cols pg (offset + pox)) as [cells' e'] eqn:Hd.
  apply draw_cells_spec in Hd as (Hlen & k & Hk & _ & He); [|lia].
  destruct e' as [o|o| |]; [| | |contradiction].
  - destruct He as (-> & Hlt & _). rewrite range_ok_true by lia.
    destruct (memchr pg _ NL _) as [s|] eqn:Hm; intros [= <- <-];
      (split; [assumption|]); [|exact I].
    apply memchr_some in Hm as [Hs _]; lia.
  - intros [= <- <-]. split; [assumption | lia].
  - intros [= <- <-]. split; [assumption | exact I].
Qed.

Lemma draw_nowrap_rows_spec cols pox : forall n offset y,
  0 <= offset -> 0 <= pox ->
  let d := draw_nowrap_rows n cols pg pox offset y in
  in_bounds d = true /\ Forall (fun r => (length r <= cols)%nat) (painted d).
Proof.
  induction n as [|n IH]; intros offset y Hoff Hpox; cbn [draw_nowrap_rows].
  - cbn. split; [reflexivity | constructor].
  - destruct (nowrap_row cols pg pox offset) as [cells e] eqn:Hr.
    apply nowrap_row_spec in Hr as [Hlen He]; [|assumption..].
    destruct e as [o|o| |]; try contradiction.
    + destruct (IH o (y + 1) He Hpox) as [Hb Hw]. cbn.
      split; [assumption | constructor; assumption].
    + cbn. split; [reflexivity | constructor; [assumption | constructor]].
Qed.

(** Without a newline in the file, the columns loop paints [cols] bytes. *)
Lemma draw_cells_plain : forall cols offset,
  NL ∉ pg -> 0 <= offset -> offset + Z.of_nat cols < Z.of_nat (length pg) ->
  draw_cells cols pg offset =
  (map print_char (mem_range pg offset (Z.of_nat cols)), RowFull (offset + Z.of_nat cols)).
Proof.
  induction cols as [|cols IH]; intros offset Hnl Hoff Hfit; cbn [draw_cells].
  - cbn. rewrite Z.add_0_r. reflexivity.
  - destruct (byte_at_in_file pg offset ltac:(lia)) as [c Hc]. rewrite Hc.
    destruct (Z.geb_spec (offset + 1) (Z.of_nat (length pg))); [lia|].
    assert (c <> NL).
    { intros ->. apply Hnl. unfold byte_at in Hc.
      destruct (offset <? 0); [discriminate|]. eapply list_elem_of_lookup_2. eassumption. }
    rewrite (proj2 (Z.eqb_neq c NL)) by assumption.
    rewrite IH by (assumption || lia).
    replace (Z.of_nat (S cols)) with (Z.of_nat cols + 1) by lia.
    rewrite (mem_range_cons pg offset _ c Hc) by lia.
    cbn. do 2 f_equal. lia.
Qed.

Lemma find_byte_absent bytes ch : forall base,
  ch ∉ bytes -> find_byte bytes ch base = None.
Proof.
  induction bytes as [|b bytes IH]; intros base Hn; [reflexivity|]. cbn.
  apply not_elem_of_cons in Hn as [Hne Hn].
  rewrite (proj2 (Z.eqb_neq b ch)) by congruence. apply IH. assumption.
Qed.

Lemma memchr_absent off cnt : NL ∉ pg -> memchr pg off NL cnt = None.
Proof.
  intros Hn. unfold memchr, mem_range. apply find_byte_absent.
  intros Hin. apply Hn. apply (subseteq_take (Z.to_nat cnt)) in Hin.
  eapply subseteq_drop. eassumption.
Qed.
End NoWrap.

(** X19.  With [page_offset >= 0] and [page_offset_x >= 0] the no-wrap layout
    reads only the file and paints at most [height - 1] rows of at most
    [width] cells. *)
Theorem draw_nowrap_in_bounds t e :
  0 <= page_offset e -> 0 <= page_offset_x e ->
  let d := qe_draw_nowrap t e in
  in_bounds d = true /\
  (length (painted d) <= Z.to_nat (height t - 1))%nat /\
  Forall (fun r => (length r <= Z.to_nat (width t))%nat) (painted d) /\
  0 <= last_row d <= Z.of_nat (Z.to_nat (height t - 1)).
Proof.
  intros Hpo Hpox. unfold qe_draw_nowrap.
  pose proof (draw_nowrap_rows_spec (page e) (Z.to_nat (width t)) (page_offset_x e)
                (Z.to_nat (height t - 1)) (page_offset e) 0 Hpo Hpox) as [Hb Hw].
  pose proof (draw_nowrap_rows_count (Z.to_nat (width t)) (page e) (page_offset_x e)
                (Z.to_nat (height t - 1)) (page_offset e) 0) as Hc.
  cbn zeta. repeat split; try assumption; destruct Hc as [[Hl Hy]|[Hl Hy]]; lia.
Qed.

Lemma draw_nowrap_in_bounds_witness :
  let e := qe_init false false two_lines in
  let d := qe_draw_nowrap term_5x10 e in
  in_bounds d = true /\
  (length (painted d) <= Z.to_nat (height term_5x10 - 1))%nat /\
  Forall (fun r => (length r <= Z.to_nat (width term_5x10))%nat) (painted d) /\
  0 <= last_row d <= Z.of_nat (Z.to_nat (height term_5x10 - 1)).
Proof.
  intros e. apply (draw_nowrap_in_bounds term_5x10 e).
  - vm_compute. discriminate.
  - vm_compute. discriminate.
Defined.

(** X20.  A file without any newline, longer than the part of it in view: the
    no-wrap layout paints the [width] bytes from [page_offset + page_offset_x]
    on row 0 and nothing else; the frame is that row and [height - 1] marker
    rows. *)
Theorem draw_nowrap_long_line t e :
  NL ∉ page e -> wrap e = false ->
  0 <= page_offset e -> 0 <= page_offset_x e -> 0 <= width t -> 2 <= height t ->
  page_offset e + page_offset_x e + width t < st_size e ->
  qe_draw_nowrap t e =
    mkDrawn [map print_char
               (mem_range (page e) (page_offset e + page_offset_x e) (width t))] 0 true /\
  markers (fst (qe_draw t e)) = Z.to_nat (height t - 1).
Proof.
  intros Hnl Hwrap Hpo Hpox Hw Hh Hfit. unfold st_size in Hfit.
  assert (Hdraw : qe_draw_nowrap t e =
    mkDrawn [map print_char
               (mem_range (page e) (page_offset e + page_offset_x e) (width t))] 0 true).
  { unfold qe_draw_nowrap.
    destruct (Z.to_nat (height t - 1)) as [|n] eqn:Hn; [lia|].
    cbn [draw_nowrap_rows]. unfold nowrap_row.
    destruct (Z.geb_spec (page_offset e + page_offset_x e) (Z.of_nat (length (page e)))); [lia|].
    destruct (Z.ltb_spec (page_offset_x e) 0); [lia|].
    rewrite range_ok_true by lia. rewrite memchr_absent by assumption.
    rewrite draw_cells_plain by (assumption || lia).
    rewrite range_ok_true by lia. rewrite memchr_absent by assumption.
    rewrite Z2Nat.id by lia. reflexivity. }
  split; [exact Hdraw|].
  unfold qe_draw. rewrite Hwrap, Hdraw. cbn. f_equal. lia.
Qed.

Lemma draw_nowrap_long_line_witness :
  let e := qe_init false false one_long_line in
  qe_draw_nowrap term_5x10 e =
    mkDrawn [map print_char
               (mem_range (page e) (page_offset e + page_offset_x e) (width term_5x10))]
      0 true /\
  markers (fst (qe_draw term_5x10 e)) = Z.to_nat (height term_5x10 - 1).
Proof.
  intros e. apply (draw_nowrap_long_line term_5x10 e).
  - apply (bool_decide_unpack _). vm_compute. exact I.
  - reflexivity.
  - vm_compute. discriminate.
  - vm_compute. discriminate.
  - vm_compute. discriminate.
  - vm_compute. discriminate.
  - reflexivity.
Defined.

(** X21.  When a newline lies among the [page_offset_x] bytes skipped at
    [page_offset], the no-wrap layout leaves the row empty without moving on,
    and so every row after it: the whole view is blank. *)
Theorem draw_nowrap_blank_when_first_line_short t e s :
  0 <= page_offset e -> 0 <= page_offset_x e ->
  page_offset e + page_offset_x e < st_size e ->
  memchr (page e) (page_offset e) NL (page_offset_x e) = Some s ->
  qe_draw_nowrap t e =
    mkDrawn (replicate (Z.to_nat (height t - 1)) []) (Z.of_nat (Z.to_nat (height t - 1))) true.
Proof.
  intros Hpo Hpox Hfit Hm. unfold qe_draw_nowrap, st_size in *.
  assert (Hrow : nowrap_row (Z.to_nat (width t)) (page e) (page_offset_x e) (page_offset e)
                 = ([], RowNewline (page_offset e))).
  { unfold nowrap_row.
    destruct (Z.geb_spec (page_offset e + page_offset_x e) (Z.of_nat (length (page e)))); [lia|].
    destruct (Z.ltb_spec (page_offset_x e) 0); [lia|].
    rewrite range_ok_true by lia. rewrite Hm. reflexivity. }
  assert (Hall : forall n y,
    draw_nowrap_rows n (Z.to_nat (width t)) (page e) (page_offset_x e) (page_offset e) y
    = mkDrawn (replicate n []) (y + Z.of_nat n) true).
  { induction n as [|n IH]; intros y; cbn [draw_nowrap_rows].
    - cbn. rewrite Z.add_0_r. reflexivity.
    - rewrite Hrow, IH. cbn. f_equal. lia. }
  rewrite Hall. reflexivity.
Qed.

Lemma draw_nowrap_blank_when_first_line_short_witness :
  let e := set_page_offset_x 5 (qe_init false false three_lines) in
  qe_draw_nowrap term_5x10 e =
    mkDrawn (replicate (Z.to_nat (height term_5x10 - 1)) [])
      (Z.of_nat (Z.to_nat (height term_5x10 - 1))) true.
Proof.
  intros e. apply (draw_nowrap_blank_when_first_line_short term_5x10 e 2).
  - vm_compute. discriminate.
  - vm_compute. discriminate.
  - reflexivity.
  - reflexivity.
Defined.

(** X22.  With [page_offset] equal to the size of the file (where a forward
    scroll can leave it), the wrap layout reads the byte at offset [S], one
    past the mapping. *)
Theorem draw_wrap_reads_past_end t e :
  page_offset e = st_size e -> 2 <= height t -> 2 <= width t ->
  in_bounds (qe_draw_wrap t e) = false.
Proof.
  intros Hpo Hh Hw. unfold qe_draw_wrap. rewrite Hpo. unfold st_size.
  destruct (Z.to_nat (height t - 1)) as [|n] eqn:Hn; [lia|].
  destruct (Z.to_nat (width t - 1)) as [|c] eqn:Hc; [lia|].
  cbn [draw_wrap_rows draw_cells].
  replace (byte_at (page e) (Z.of_nat (length (page e)))) with (@None Z); [reflexivity|].
  symmetry. unfold byte_at. destruct (_ <? 0); [reflexivity|].
  apply lookup_ge_None. lia.
Qed.

Lemma draw_wrap_reads_past_end_witness :
  let e := state_of (qe_move_window_y 1 (qe_init false true two_lines)) in
  page_offset e = 17 /\ in_bounds (qe_draw_wrap term_5x10 e) = false.
Proof.
  intros e. split; [reflexivity|].
  apply (draw_wrap_reads_past_end term_5x10 e).
  - reflexivity.
  - vm_compute. discriminate.
  - vm_compute. discriminate.
Defined.

(** ** The status line *)

Lemma take_padded {A} (x : A) cs : forall n m1 m2,
  (n <= m1)%nat -> (n <= m2)%nat ->
  take n (cs ++ replicate m1 x) = take n (cs ++ replicate m2 x).
Proof.
  induction cs as [|c cs IH]; intros n m1 m2 H1 H2.
  - cbn. rewrite !take_replicate. f_equal. lia.
  - destruct n as [|n]; [reflexivity|]. cbn. f_equal. apply IH; lia.
Qed.

Lemma status_cells_blank buf : forall n i,
  0 <= i -> i + Z.of_nat n <= Z.of_nat (length buf) ->
  status_cells n buf i true = Some (replicate n (key " ")).
Proof.
  induction n as [|n IH]; intros i Hi Hfit; [reflexivity|]. cbn [status_cells].
  destruct (byte_at buf i) as [b|] eqn:Hb.
  - cbn [orb]. rewrite IH by lia. reflexivity.
  - exfalso. unfold byte_at in Hb. rewrite (proj2 (Z.ltb_ge i 0)) in Hb by lia.
    apply lookup_ge_None in Hb. lia.
Qed.

Lemma status_cells_text buf : forall n i,
  0 <= i -> i + Z.of_nat n <= Z.of_nat (length buf) ->
  status_cells n buf i false =
  Some (take n (c_string (drop (Z.to_nat i) buf) ++ replicate n (key " "))).
Proof.
  induction n as [|n IH]; intros i Hi Hfit; [reflexivity|]. cbn [status_cells].
  destruct (byte_at buf i) as [b|] eqn:Hb.
  2:{ exfalso. unfold byte_at in Hb. rewrite (proj2 (Z.ltb_ge i 0)) in Hb by lia.
      apply lookup_ge_None in Hb. lia. }
  unfold byte_at in Hb. rewrite (proj2 (Z.ltb_ge i 0)) in Hb by lia.
  rewrite (drop_S _ _ _ Hb). cbn [orb c_string].
  destruct (b =? 0).
  - rewrite status_cells_blank by lia. cbn [app]. rewrite replicate_S. cbn [take].
    rewrite take_replicate, Nat.min_id. reflexivity.
  - rewrite IH by lia. replace (Z.to_nat (i + 1)) with (S (Z.to_nat i)) by lia.
    cbn [app take]. do 2 f_equal. apply take_padded; lia.
Qed.

Lemma status_cells_outside buf : forall n i at_end,
  0 <= i <= Z.of_nat (length buf) -> Z.of_nat (length buf) < i + Z.of_nat n ->
  status_cells n buf i at_end = None.
Proof.
  induction n as [|n IH]; intros i at_end Hi Hfit; [lia|]. cbn [status_cells].
  destruct (byte_at buf i) as [b|] eqn:Hb; [|reflexivity].
  apply byte_at_Some in Hb. rewrite IH by lia. reflexivity.
Qed.

(** X23.  The status line is the text of the status buffer up to its first
    NUL, cut or padded with spaces to the width of the terminal; on a terminal
    wider than the buffer the loop reads past the buffer's end. *)
Theorem draw_status_cells t buf :
  qe_draw_status t buf =
  if width t <=? Z.of_nat (length buf)
  then Some (take (Z.to_nat (width t))
               (c_string buf ++ replicate (Z.to_nat (width t)) (key " ")))
  else None.
Proof.
  unfold qe_draw_status. destruct (Z.leb_spec (width t) (Z.of_nat (length buf))) as [H|H].
  - destruct (Z.le_gt_cases 0 (width t)) as [Hw|Hw].
    + rewrite status_cells_text by lia. reflexivity.
    + replace (Z.to_nat (width t)) with O by lia. reflexivity.
  - apply status_cells_outside; lia.
Qed.

(** ** The command line *)

Lemma arg_step_swap a b o o1 o2 :
  arg_step a o = inl o1 -> arg_step b o1 = inl o2 ->
  exists o1', arg_step b o = inl o1' /\ arg_step a o1' = inl o2.
Proof.
  unfold arg_step. destruct o as [ro bs wr fn].
  destruct (is_option a); cbn;
    repeat (match goal with
            | |- context [String.eqb a ?y] => destruct (String.eqb a y)
            end; cbn);
    try destruct fn; cbn;
    intros H1; try discriminate; injection H1 as <-; cbn;
    (destruct (is_option b); cbn;
     repeat (match goal with
             | |- context [String.eqb b ?y] => destruct (String.eqb b y)
             end; cbn);
     intros H2; try discriminate; injection H2 as <-;
     eexists; split; reflexivity).
Qed.

Lemma parse_args_permutation args args' :
  args ≡ₚ args' -> forall o0 o, parse_args args o0 = inl o -> parse_args args' o0 = inl o.
Proof.
  induction 1 as [|a l l' _ IH|a b l|l1 l2 l3 _ IH1 _ IH2]; intros o0 o.
  - auto.
  - cbn. destruct (arg_step a o0); [apply IH | auto].
  - cbn. destruct (arg_step b o0) as [o1|] eqn:Hb; [|discriminate].
    destruct (arg_step a o1) as [o2|] eqn:Ha; [|discriminate].
    destruct (arg_step_swap _ _ _ _ _ Hb Ha) as (o1' & -> & ->). auto.
  - auto.
Qed.

(** X24.  Whether the command line is accepted, and the options it yields, do
    not depend on the order of the arguments. *)
Theorem qe_args_order_independent args args' o :
  args ≡ₚ args' -> qe_args args = inl o <-> qe_args args' = inl o.
Proof.
  assert (Hdir : forall l l', l ≡ₚ l' -> qe_args l = inl o -> qe_args l' = inl o).
  { intros l l' Hp. unfold qe_args.
    destruct (parse_args l _) as [o1|] eqn:H1; [|discriminate].
    rewrite (parse_args_permutation _ _ Hp _ _ H1). auto. }
  intros Hp. split; apply Hdir; [assumption | symmetry; assumption].
Qed.

Lemma qe_args_order_independent_witness :
  let o := mkOptions true false true (Some "notes.txt"%string) in
  qe_args ["-ro"; "notes.txt"; "-w"]%string = inl o <->
  qe_args ["notes.txt"; "-w"; "-ro"]%string = inl o.
Proof.
  intros o.
  apply (qe_args_order_independent ["-ro"; "notes.txt"; "-w"]%string
           ["notes.txt"; "-w"; "-ro"]%string o).
  exact (Permutation_cons_append ["notes.txt"; "-w"]%string "-ro"%string).
Defined.

Lemma arg_step_spec a o0 o1 :
  arg_step a o0 = inl o1 ->
  known_argument a /\
  (opt_read_only o1 = true <-> opt_read_only o0 = true \/ a = "-ro"%string) /\
  (opt_batched_save o1 = true <-> opt_batched_save o0 = true \/ a = "-s"%string) /\
  (opt_wrap o1 = true <-> opt_wrap o0 = true \/ a = "-w"%string) /\
  (is_option a = true /\ opt_filename o1 = opt_filename o0 \/
   is_option a = false /\ opt_filename o0 = None /\ opt_filename o1 = Some a).
Proof.
  unfold arg_step, known_argument. destruct (is_option a) eqn:Hopt.
  - destruct (String.eqb_spec a "-ro") as [->|Hro].
    { intros [= <-]. cbn. intuition (auto; discriminate). }
    destruct (String.eqb_spec a "-s") as [->|Hs].
    { intros [= <-]. cbn. intuition (auto; discriminate). }
    destruct (String.eqb_spec a "-w") as [->|Hw].
    { intros [= <-]. cbn. intuition (auto; discriminate). }
    destruct (String.eqb a "-h"); discriminate.
  - destruct (opt_filename o0) eqn:Hf; [discriminate|].
    intros [= <-]. cbn.
    assert (a <> "-ro"%string /\ a <> "-s"%string /\ a <> "-w"%string) as (?&?&?)
      by (repeat split; intros ->; discriminate).
    intuition (auto; discriminate).
Qed.

Lemma parse_args_spec : forall args o0 o,
  parse_args args o0 = inl o ->
  Forall known_argument args /\
  (opt_read_only o = true <-> opt_read_only o0 = true \/ "-ro"%string ∈ args) /\
  (opt_batched_save o = true <-> opt_batched_save o0 = true \/ "-s"%string ∈ args) /\
  (opt_wrap o = true <-> opt_wrap o0 = true \/ "-w"%string ∈ args) /\
  (filenames args = [] /\ opt_filename o = opt_filename o0 \/
   exists f, filenames args = [f] /\ opt_filename o0 = None /\ opt_filename o = Some f).
Proof.
  induction args as [|a args IH]; intros o0 o.
  - intros [= <-]. split; [constructor|].
    rewrite !elem_of_nil. intuition.
  - cbn [parse_args]. destruct (arg_step a o0) as [o1|] eqn:Hstep; [|discriminate].
    intros Hrest. apply arg_step_spec in Hstep as (Hk & Hro & Hbs & Hwr & Hfile).
    apply IH in Hrest as (Hks & Hro' & Hbs' & Hwr' & Hfiles).
    split; [constructor; assumption|].
    rewrite !elem_of_cons.
    split; [rewrite Hro', Hro; intuition congruence|].
    split; [rewrite Hbs', Hbs; intuition congruence|].
    split; [rewrite Hwr', Hwr; intuition congruence|].
    unfold filenames in *.
    destruct Hfile as [(Hopt & Hsame)|(Hopt & Hnone & Hsome)].
    + rewrite filter_cons_False by (rewrite Hopt; discriminate).
      rewrite <- Hsame. exact Hfiles.
    + rewrite filter_cons_True by assumption.
      destruct Hfiles as [(Hnil & Hf)|(f & _ & Hcontra & _)]; [|congruence].
      right. exists a. rewrite Hnil. repeat split; congruence.
Qed.

(** X25.  An accepted command line names exactly one file, uses no option
    other than [-ro], [-s] and [-w], and sets each flag exactly when its
    option is present. *)
Theorem qe_args_accepted args o :
  qe_args args = inl o ->
  Forall known_argument args /\
  (exists f, filenames args = [f] /\ opt_filename o = Some f) /\
  (opt_read_only o = true <-> "-ro"%string ∈ args) /\
  (opt_batched_save o = true <-> "-s"%string ∈ args) /\
  (opt_wrap o = true <-> "-w"%string ∈ args).
Proof.
  unfold qe_args.
  destruct (parse_args args _) as [o1|] eqn:Hp; [|discriminate].
  destruct (opt_filename o1) as [f|] eqn:Hf; [|discriminate].
  intros [= <-]. apply parse_args_spec in Hp as (Hk & Hro & Hbs & Hwr & Hfiles).
  cbn in *. split; [assumption|]. split.
  - destruct Hfiles as [(_ & Hnone)|(f' & Hl & _ & Hs)]; [congruence|].
    exists f'. split; congruence.
  - intuition discriminate.
Qed.

Lemma qe_args_accepted_witness :
  let args := ["-ro"; "notes.txt"]%string in
  let o := mkOptions true false false (Some "notes.txt"%string) in
  Forall known_argument args /\
  (exists f, filenames args = [f] /\ opt_filename o = Some f) /\
  (opt_read_only o = true <-> "-ro"%string ∈ args) /\
  (opt_batched_save o = true <-> "-s"%string ∈ args) /\
  (opt_wrap o = true <-> "-w"%string ∈ args).
Proof.
  intros args o. apply (qe_args_accepted args o). reflexivity.
Defined.

(** ** The first version of the scan *)

Section FirstVersion.
Variable pg : list Z.

Lemma scan_past_newlines_safe : forall fuel step an i po,
  step = 1 \/ step = -1 ->
  (bytes_ahead pg step po < fuel)%nat ->
  match scan_past_newlines fuel pg step an i po with
  | Clamp q => q = 0 \/ q = Z.of_nat (length pg) - 1
  | Land q => 0 <= q < Z.of_nat (length pg) /\ byte_at pg q = Some NL
  | Fault _ | Exhausted => False
  end.
Proof.
  induction fuel as [|fuel IH]; intros step an i po Hstep Hf; [lia|].
  cbn [scan_past_newlines].
  destruct (Z.ltb_spec po 0); [left; reflexivity|].
  destruct (Z.geb_spec po (Z.of_nat (length pg))); [right; reflexivity|].
  assert (Hnext : (bytes_ahead pg step (po + step) < fuel)%nat).
  { unfold bytes_ahead in *. destruct Hstep as [-> | ->]; cbn [Z.ltb Z.compare] in *; lia. }
  destruct (byte_at_in_file pg po ltac:(lia)) as [b Hb]. rewrite Hb.
  destruct (b =? NL) eqn:Hnl; [|apply IH; assumption].
  destruct (_ >? an); [|apply IH; assumption].
  split; [lia|]. apply Z.eqb_eq in Hnl. congruence.
Qed.

Lemma scan_past_forward_land : forall fuel an i po q,
  0 <= i <= an -> an < INT32_MAX ->
  scan_past_newlines fuel pg 1 an i po = Land q ->
  0 <= po <= q /\ byte_at pg q = Some NL /\ i + nl_count pg po q = an.
Proof.
  unfold INT32_MAX.
  induction fuel as [|fuel IH]; intros an i po q Hi Han;
    cbn [scan_past_newlines]; [discriminate|].
  destruct (Z.ltb_spec po 0); [discriminate|].
  destruct (Z.geb_spec po (Z.of_nat (length pg))); [discriminate|].
  destruct (byte_at pg po) as [b|] eqn:Hb; [|discriminate].
  destruct (b =? NL) eqn:Hnl.
  - rewrite to_int32_small by lia.
    destruct (Z.gtb_spec (i + 1) an).
    + intros [= <-]. rewrite nl_count_empty by lia.
      repeat split; [lia | lia | eapply byte_newline; eassumption | lia].
    + intros Hscan. apply IH in Hscan as (Hq & Hat & Hcnt); [|lia..].
      rewrite (nl_count_first_newline pg po q) by (lia || eapply byte_newline; eassumption).
      repeat split; [lia | lia | assumption | lia].
  - intros Hscan. apply IH in Hscan as (Hq & Hat & Hcnt); [|lia..].
    rewrite (nl_count_first pg po q) by lia.
    rewrite (byte_not_newline pg po b) by assumption.
    repeat split; [lia | lia | assumption | lia].
Qed.

Lemma scan_past_backward_land : forall fuel an i po q,
  0 <= i <= an -> an < INT32_MAX ->
  scan_past_newlines fuel pg (-1) an i po = Land q ->
  0 <= q <= po /\ byte_at pg q = Some NL /\ i + nl_count pg (q + 1) (po + 1) = an.
Proof.
  unfold INT32_MAX.
  induction fuel as [|fuel IH]; intros an i po q Hi Han;
    cbn [scan_past_newlines]; [discriminate|].
  destruct (Z.ltb_spec po 0); [discriminate|].
  destruct (Z.geb_spec po (Z.of_nat (length pg))); [discriminate|].
  destruct (byte_at pg po) as [b|] eqn:Hb; [|discriminate].
  replace (po + -1) with (po - 1) by lia.
  destruct (b =? NL) eqn:Hnl.
  - rewrite to_int32_small by lia.
    destruct (Z.gtb_spec (i + 1) an).
    + intros [= <-]. rewrite nl_count_empty by lia.
      repeat split; [lia | lia | eapply byte_newline; eassumption | lia].
    + intros Hscan. apply IH in Hscan as (Hq & Hat & Hcnt); [|lia..].
      replace (po - 1 + 1) with po in Hcnt by lia.
      rewrite nl_count_last by lia.
      replace (is_newline pg po) with true
        by (symmetry; apply is_newline_byte; eapply byte_newline; eassumption).
      repeat split; [lia | lia | assumption | lia].
  - intros Hscan. apply IH in Hscan as (Hq & Hat & Hcnt); [|lia..].
    replace (po - 1 + 1) with po in Hcnt by lia.
    rewrite nl_count_last by lia.
    rewrite (byte_not_newline pg po b) by assumption.
    repeat split; [lia | lia | assumption | lia].
Qed.

Lemma nl_count_last_newline a b :
  a <= b -> byte_at pg b = Some NL -> nl_count pg a (b + 1) = nl_count pg a b + 1.
Proof.
  intros H Hb. rewrite nl_count_last by lia.
  apply is_newline_byte in Hb. rewrite Hb. reflexivity.
Qed.

(** Two newlines with the same number of newlines up to a third offset are
    the same newline. *)
Lemma newline_unique_by_count a b c :
  byte_at pg a = Some NL -> byte_at pg b = Some NL ->
  a <= c -> b <= c ->
  nl_count pg (a + 1) (c + 1) = nl_count pg (b + 1) (c + 1) -> a = b.
Proof.
  intros Ha Hb Hac Hbc Heq.
  destruct (Z.lt_trichotomy a b) as [Hlt|[?|Hgt]]; [exfalso | assumption | exfalso].
  - rewrite (nl_count_split pg (a + 1) b (c + 1)) in Heq by lia.
    rewrite (nl_count_first_newline pg b (c + 1)) in Heq by (assumption || lia).
    pose proof (nl_count_nonneg pg (a + 1) b). lia.
  - rewrite (nl_count_split pg (b + 1) a (c + 1)) in Heq by lia.
    rewrite (nl_count_first_newline pg a (c + 1)) in Heq by (assumption || lia).
    pose proof (nl_count_nonneg pg (b + 1) a). lia.
Qed.
End FirstVersion.

Lemma scan_past_newlines_step fuel pg step an i po :
  scan_past_newlines (S fuel) pg step an i po =
  if po <? 0 then Clamp 0
  else if po >=? Z.of_nat (length pg) then Clamp (Z.of_nat (length pg) - 1)
  else match byte_at pg po with
       | None => Fault po
       | Some b =>
           if b =? NL then
             if to_int32 (i + 1) >? an then Land po
             else scan_past_newlines fuel pg step an (to_int32 (i + 1)) (po + step)
           else scan_past_newlines fuel pg step an i (po + step)
       end.
Proof. reflexivity. Qed.

(** X26.  On a file of at least one byte, the v0.1.0 scan always ends, never
    reads outside the file and leaves the offset inside it: at 0 or [S - 1]
    after running off an edge, on a newline byte otherwise. *)
Theorem first_version_scan_stays_in_file pg n po :
  1 <= Z.of_nat (length pg) ->
  match qe_scan_past_newlines pg n po with
  | Clamp q => q = 0 \/ q = Z.of_nat (length pg) - 1
  | Land q => 0 <= q < Z.of_nat (length pg) /\ byte_at pg q = Some NL
  | Fault _ | Exhausted => False
  end.
Proof.
  intros HS. unfold qe_scan_past_newlines.
  destruct (Z.ltb_spec po 0) as [Hneg|Hpos].
  { rewrite scan_past_newlines_step. rewrite (proj2 (Z.ltb_lt po 0)) by lia.
    left. reflexivity. }
  destruct (Z.geb_spec po (Z.of_nat (length pg))) as [Hbig|Hin].
  { rewrite scan_past_newlines_step. rewrite (proj2 (Z.ltb_ge po 0)) by lia.
    destruct (Z.geb_spec po (Z.of_nat (length pg))); [|lia]. right. reflexivity. }
  apply scan_past_newlines_safe.
  - unfold scroll_step. destruct (n >? 0); auto.
  - unfold bytes_ahead, scroll_step. destruct (n >? 0); cbn [Z.ltb Z.compare]; lia.
Qed.

Lemma first_version_scan_stays_in_file_witness :
  match qe_scan_past_newlines plain_lines 1 0 with
  | Clamp q => q = 0 \/ q = Z.of_nat (length plain_lines) - 1
  | Land q => 0 <= q < Z.of_nat (length plain_lines) /\ byte_at plain_lines q = Some NL
  | Fault _ | Exhausted => False
  end.
Proof.
  apply (first_version_scan_stays_in_file plain_lines 1 0).
  vm_compute. discriminate.
Defined.

(** X27.  In v0.1.0, from an offset on a newline, a scan by [n] followed by a
    scan by [- n] comes back to that newline whenever neither runs off an
    edge of the file. *)
Theorem first_version_round_trip pg n po q r :
  - INT32_MAX < n < INT32_MAX ->
  byte_at pg po = Some NL ->
  qe_scan_past_newlines pg n po = Land q ->
  qe_scan_past_newlines pg (- n) q = Land r ->
  r = po.
Proof.
  intros Hn Hpo Hfirst Hsecond.
  pose proof (byte_at_Some _ _ _ Hpo) as Hrange.
  unfold qe_scan_past_newlines, scroll_step, scroll_count in *.
  destruct (Z.lt_trichotomy n 0) as [Hneg|[->|Hpos]].
  - rewrite gtb_false in Hfirst by lia. rewrite gtb_true in Hsecond by lia.
    rewrite to_int32_small in Hfirst by (unfold INT32_MAX in Hn; lia).
    apply scan_past_backward_land in Hfirst as (Hq & Hqnl & Hcnt); [|lia..].
    apply scan_past_forward_land in Hsecond as (Hr & Hrnl & Hcnt'); [|lia..].
    rewrite Z.add_0_l in Hcnt, Hcnt'.
    assert (q < r) by (destruct (Z.eq_dec q r) as [->|]; [rewrite nl_count_empty in Hcnt' by lia|]; lia).
    rewrite (nl_count_first_newline pg q r) in Hcnt' by (assumption || lia).
    destruct (Z.lt_trichotomy r po) as [Hlt|[?|Hgt]]; [exfalso | assumption | exfalso].
    + rewrite (nl_count_split pg (q + 1) r (po + 1)) in Hcnt by lia.
      rewrite (nl_count_first_newline pg r (po + 1)) in Hcnt by (assumption || lia).
      rewrite (nl_count_last_newline pg (r + 1) po) in Hcnt by (assumption || lia).
      pose proof (nl_count_nonneg pg (r + 1) po). lia.
    + assert (q < po) by (destruct (Z.eq_dec q po) as [->|]; [rewrite nl_count_empty in Hcnt by lia|]; lia).
      rewrite (nl_count_split pg (q + 1) (po + 1) r) in Hcnt' by lia.
      pose proof (nl_count_nonneg pg (po + 1) r). lia.
  - change (- 0) with 0 in *. rewrite gtb_false in Hfirst, Hsecond by lia.
    change (- 0) with 0 in *.
    assert (Hstay : forall x, byte_at pg x = Some NL ->
      scan_past_newlines (S (length pg)) pg (-1) (to_int32 0) 0 x = Land x).
    { intros x Hx. pose proof (byte_at_Some _ _ _ Hx).
      rewrite scan_past_newlines_step.
      rewrite (proj2 (Z.ltb_ge x 0)) by lia.
      destruct (Z.geb_spec x (Z.of_nat (length pg))); [lia|].
      rewrite Hx. reflexivity. }
    rewrite (Hstay po Hpo) in Hfirst. injection Hfirst as <-.
    rewrite (Hstay po Hpo) in Hsecond. congruence.
  - rewrite gtb_true in Hfirst by lia. rewrite gtb_false in Hsecond by lia.
    rewrite Z.opp_involutive, to_int32_small in Hsecond by (unfold INT32_MAX in Hn; lia).
    apply scan_past_forward_land in Hfirst as (Hq & Hqnl & Hcnt); [|lia..].
    apply scan_past_backward_land in Hsecond as (Hr & Hrnl & Hcnt'); [|lia..].
    rewrite Z.add_0_l in Hcnt, Hcnt'.
    assert (po < q) by (destruct (Z.eq_dec po q) as [->|]; [rewrite nl_count_empty in Hcnt by lia|]; lia).
    rewrite (nl_count_first_newline pg po q) in Hcnt by (assumption || lia).
    symmetry. apply (newline_unique_by_count pg po r q); try assumption; try lia.
    rewrite (nl_count_last_newline pg (po + 1) q) by (assumption || lia). lia.
Qed.

Lemma first_version_round_trip_witness :
  qe_scan_past_newlines plain_lines 1 2 = Land 5 /\
  qe_scan_past_newlines plain_lines (- 1) 5 = Land 2 /\ 2 = 2.
Proof.
  split; [reflexivity|]. split; [reflexivity|].
  apply (first_version_round_trip plain_lines 1 2 5 2).
  - vm_compute. split; reflexivity.
  - reflexivity.
  - reflexivity.
  - reflexivity.
Defined.

(** ** The test-file generator *)

Lemma next_printable_range s : printable_byte (fst (next_printable s)).
Proof.
  unfold next_printable, next, printable_byte. cbn [fst].
  change 63 with (Z.ones 6). rewrite Z.land_ones by lia.
  pose proof (Z.mod_pos_bound (to_uint8 (xorshift32 s)) (2 ^ 6) ltac:(lia)). lia.
Qed.

Lemma printable_run_spec : forall n s,
  length (fst (printable_run n s)) = n /\
  Forall printable_byte (fst (printable_run n s)).
Proof.
  induction n as [|n IH]; intros s; cbn [printable_run]; [split; [reflexivity | constructor]|].
  pose proof (next_printable_range s) as Hb.
  destruct (next_printable s) as [b s1]. specialize (IH s1).
  destruct (printable_run n s1) as [l s2]. cbn in *.
  destruct IH as [Hl Hf]. split; [lia | constructor; assumption].
Qed.

(** *** The state never becomes zero *)

Lemma lxor_uint32 a b :
  0 <= a < 2 ^ 32 -> 0 <= b < 2 ^ 32 -> 0 <= Z.lxor a b < 2 ^ 32.
Proof.
  intros Ha Hb.
  assert (Hnn : 0 <= Z.lxor a b) by (apply Z.lxor_nonneg; lia).
  split; [assumption|].
  destruct (Z.eq_dec (Z.lxor a b) 0) as [->|Hne]; [lia|].
  apply Z.log2_lt_pow2; [lia|].
  pose proof (Z.log2_lxor a b ltac:(lia) ltac:(lia)) as Hlog.
  assert (Hla : Z.log2 a < 32).
  { destruct (Z.eq_dec a 0) as [->|]; [reflexivity|]. apply Z.log2_lt_pow2; lia. }
  assert (Hlb : Z.log2 b < 32).
  { destruct (Z.eq_dec b 0) as [->|]; [reflexivity|]. apply Z.log2_lt_pow2; lia. }
  lia.
Qed.

Lemma shl_xor_nonzero s k :
  0 < s < 2 ^ 32 -> 0 < k -> Z.gcd (2 ^ 32) (2 ^ k - 1) = 1 ->
  Z.lxor s (to_uint32 (Z.shiftl s k)) <> 0.
Proof.
  intros Hs Hk Hprime Hz. apply Z.lxor_eq in Hz.
  unfold to_uint32, wrap_u in Hz. rewrite Z.shiftl_mul_pow2 in Hz by lia.
  assert (Hdiv : (2 ^ 32 | (2 ^ k - 1) * s)).
  { exists (s * 2 ^ k / 2 ^ 32).
    pose proof (Z.div_mod (s * 2 ^ k) (2 ^ 32) ltac:(lia)). lia. }
  apply Z.gauss in Hdiv; [|assumption].
  destruct Hdiv as [c Hc]. assert (c = 0) by nia. lia.
Qed.

Lemma shr_xor_nonzero s k :
  0 < s -> 0 < k -> Z.lxor s (Z.shiftr s k) <> 0.
Proof.
  intros Hs Hk Hz. apply Z.lxor_eq in Hz.
  rewrite Z.shiftr_div_pow2 in Hz by lia.
  assert (1 < 2 ^ k) by (apply Z.pow_gt_1; lia).
  pose proof (Z.div_lt s (2 ^ k) ltac:(lia) ltac:(lia)). lia.
Qed.

Lemma shl_uint32 s k : 0 <= to_uint32 (Z.shiftl s k) < 2 ^ 32.
Proof. unfold to_uint32, wrap_u. apply Z.mod_pos_bound. lia. Qed.

Lemma shr_uint32 s k : 0 <= s < 2 ^ 32 -> 0 <= k -> 0 <= Z.shiftr s k < 2 ^ 32.
Proof.
  intros Hs Hk. rewrite Z.shiftr_div_pow2 by lia.
  assert (0 < 2 ^ k) by (apply Z.pow_pos_nonneg; lia).
  split; [apply Z.div_pos; lia|].
  apply Z.le_lt_trans with s; [|lia]. apply Z.div_le_upper_bound; nia.
Qed.

(** X28.  One step of the generator maps a non-zero 32-bit state to a non-zero
    32-bit state: started from its seed, [next] never reaches 0, the fixed
    point of the three shifts. *)
Theorem xorshift32_keeps_state_nonzero s :
  0 < s < 2 ^ 32 -> 0 < xorshift32 s < 2 ^ 32.
Proof.
  intros Hs. unfold xorshift32. cbv zeta.
  set (s1 := Z.lxor s (to_uint32 (Z.shiftl s 13))).
  assert (H1 : 0 < s1 < 2 ^ 32).
  { pose proof (lxor_uint32 s _ ltac:(lia) (shl_uint32 s 13)).
    assert (s1 <> 0); [|subst s1; lia].
    apply shl_xor_nonzero; [lia | lia |].
    reflexivity. }
  set (s2 := Z.lxor s1 (Z.shiftr s1 17)).
  assert (H2 : 0 < s2 < 2 ^ 32).
  { pose proof (lxor_uint32 s1 _ ltac:(lia) (shr_uint32 s1 17 ltac:(lia) ltac:(lia))).
    assert (s2 <> 0); [|subst s2; lia].
    apply shr_xor_nonzero; lia. }
  pose proof (lxor_uint32 s2 _ ltac:(lia) (shl_uint32 s2 5)).
  assert (Z.lxor s2 (to_uint32 (Z.shiftl s2 5)) <> 0); [|lia].
  apply shl_xor_nonzero; [lia | lia |].
  reflexivity.
Qed.

Lemma xorshift32_keeps_state_nonzero_witness :
  0 < xorshift32 seed < 2 ^ 32.
Proof.
  apply (xorshift32_keeps_state_nonzero seed). vm_compute. split; reflexivity.
Defined.

Lemma printable_not_newline b : printable_byte b -> b <> NL.
Proof. unfold printable_byte, NL. lia. Qed.

Lemma long_line_blocks_spec : forall fuel limit i s,
  Forall printable_byte (fst (long_line_blocks fuel limit i s)).
Proof.
  induction fuel as [|fuel IH]; intros limit i s; cbn [long_line_blocks]; [constructor|].
  destruct (i <? limit); [|constructor].
  pose proof (printable_run_spec 80 s) as [_ Hrun].
  destruct (printable_run 80 s) as [l s1].
  specialize (IH limit (to_int32 (i + 80)) s1).
  destruct (long_line_blocks fuel limit (to_int32 (i + 80)) s1) as [rest s2].
  cbn [fst] in *. apply Forall_app. split; assumption.
Qed.

Lemma long_line_blocks_length : forall fuel limit i s,
  0 <= i -> limit <= INT32_MAX - 79 -> (Z.to_nat (limit - i) <= fuel)%nat ->
  Z.of_nat (length (fst (long_line_blocks fuel limit i s))) =
  80 * ((Z.max 0 (limit - i) + 79) / 80).
Proof.
  induction fuel as [|fuel IH]; intros limit i s Hi Hlim Hfuel; cbn [long_line_blocks].
  - cbn. replace (Z.max 0 (limit - i)) with 0 by lia. reflexivity.
  - destruct (Z.ltb_spec i limit) as [Hlt|Hge].
    + pose proof (printable_run_spec 80 s) as [Hlen _].
      destruct (printable_run 80 s) as [l s1].
      assert (Hw : to_int32 (i + 80) = i + 80)
        by (apply to_int32_small; unfold INT32_MAX in *; lia).
      rewrite Hw.
      specialize (IH limit (i + 80) s1 ltac:(lia) Hlim ltac:(lia)).
      destruct (long_line_blocks fuel limit (i + 80) s1) as [rest s2].
      cbn [fst] in *. rewrite length_app, Nat2Z.inj_add, IH, Hlen.
      destruct (Z.le_gt_cases (limit - (i + 80)) 0).
      * replace (Z.max 0 (limit - (i + 80))) with 0 by lia.
        replace (Z.max 0 (limit - i)) with (limit - i) by lia.
        change ((0 + 79) / 80) with 0.
        assert ((limit - i + 79) / 80 = 1); [|lia].
        symmetry. apply Z.div_unique with (limit - i + 79 - 80); lia.
      * replace (Z.max 0 (limit - (i + 80))) with (limit - (i + 80)) by lia.
        replace (Z.max 0 (limit - i)) with (limit - i) by lia.
        replace (limit - i + 79) with (limit - (i + 80) + 79 + 1 * 80) by lia.
        rewrite Z.div_add by lia. lia.
    + cbn. replace (Z.max 0 (limit - i)) with 0 by lia. reflexivity.
Qed.

(** X29.  The long-line test file holds no newline: every byte is one of the
    64 values 33..96, and its length is the limit rounded up to whole 80-byte
    blocks. *)
Theorem very_long_line_has_no_newline limit s out s' :
  0 <= limit <= INT32_MAX - 79 ->
  create_very_long_line limit s = (out, s') ->
  Forall printable_byte out /\ (NL ∉ out) /\
  Z.of_nat (length out) = 80 * ((limit + 79) / 80).
Proof.
  intros Hlim Hrun. unfold create_very_long_line in Hrun.
  pose proof (long_line_blocks_spec (S (Z.to_nat limit)) limit 0 s) as Hp.
  pose proof (long_line_blocks_length (S (Z.to_nat limit)) limit 0 s
    ltac:(lia) ltac:(lia) ltac:(lia)) as Hl.
  rewrite Hrun in Hp, Hl. cbn [fst] in *.
  split; [assumption|]. split.
  - intros Hin. rewrite Forall_forall in Hp.
    apply Hp in Hin. exact (printable_not_newline NL Hin eq_refl).
  - rewrite Hl. replace (Z.max 0 (limit - 0)) with limit by lia. reflexivity.
Qed.

Lemma very_long_line_has_no_newline_witness :
  let out := fst (create_very_long_line 100 seed) in
  Forall printable_byte out /\ (NL ∉ out) /\
  Z.of_nat (length out) = 80 * ((100 + 79) / 80).
Proof.
  intros out.
  apply (very_long_line_has_no_newline 100 seed out (snd (create_very_long_line 100 seed))).
  - vm_compute. split; discriminate.
  - reflexivity.
Defined.

Lemma byte_at_app_l l r off :
  0 <= off < Z.of_nat (length l) -> byte_at (l ++ r) off = byte_at l off.
Proof.
  intros H. unfold byte_at.
  destruct (off <? 0); [reflexivity|].
  rewrite lookup_app_l by lia. reflexivity.
Qed.

Lemma byte_at_app_r l r off :
  Z.of_nat (length l) <= off ->
  byte_at (l ++ r) off = byte_at r (off - Z.of_nat (length l)).
Proof.
  intros H. unfold byte_at.
  destruct (Z.ltb_spec off 0); [lia|].
  destruct (Z.ltb_spec (off - Z.of_nat (length l)) 0); [lia|].
  rewrite lookup_app_r by lia. f_equal. lia.
Qed.

Lemma large_text_blocks_spec : forall fuel limit i s off b,
  byte_at (fst (large_text_blocks fuel limit i s)) off = Some b ->
  (off mod 80 = 79 /\ b = NL) \/ (off mod 80 <> 79 /\ printable_byte b).
Proof.
  induction fuel as [|fuel IH]; intros limit i s off b; cbn [large_text_blocks].
  - cbn. unfold byte_at. destruct (off <? 0); cbn; discriminate.
  - destruct (i <? limit).
    2:{ cbn. unfold byte_at. destruct (off <? 0); cbn; discriminate. }
    pose proof (printable_run_spec 79 s) as [Hlen Hrun].
    destruct (printable_run 79 s) as [l s1].
    specialize (IH limit (to_int32 (i + 80)) s1).
    destruct (large_text_blocks fuel limit (to_int32 (i + 80)) s1) as [rest s2].
    cbn [fst] in *. intros Hb.
    assert (Hoff : 0 <= off) by (apply byte_at_Some in Hb; lia).
    destruct (Z.lt_ge_cases off 79) as [Hin|Hout].
    + rewrite byte_at_app_l in Hb by lia. right.
      rewrite Z.mod_small by lia. split; [lia|].
      unfold byte_at in Hb. destruct (off <? 0); [discriminate|].
      rewrite Forall_forall in Hrun. apply Hrun.
      eapply list_elem_of_lookup_2. exact Hb.
    + rewrite byte_at_app_r in Hb by lia. rewrite Hlen in Hb.
      change (Z.of_nat 79) with 79 in Hb.
      destruct (Z.eq_dec off 79) as [->|Hne].
      * left. change (byte_at ([NL] ++ rest) (79 - 79)) with (Some NL) in Hb.
        split; [reflexivity | congruence].
      * rewrite (byte_at_app_r [NL]) in Hb by (cbn; lia).
        cbn [length] in Hb. change (Z.of_nat 1) with 1 in Hb.
        apply IH in Hb.
        replace (off mod 80) with ((off - 79 - 1) mod 80); [exact Hb|].
        replace off with (off - 79 - 1 + 1 * 80) at 2 by lia.
        rewrite Z.mod_add by lia. reflexivity.
Qed.

Lemma large_text_blocks_length : forall fuel limit i s,
  0 <= i -> limit <= INT32_MAX - 79 -> (Z.to_nat (limit - i) <= fuel)%nat ->
  Z.of_nat (length (fst (large_text_blocks fuel limit i s))) =
  80 * ((Z.max 0 (limit - i) + 79) / 80).
Proof.
  induction fuel as [|fuel IH]; intros limit i s Hi Hlim Hfuel; cbn [large_text_blocks].
  - cbn. replace (Z.max 0 (limit - i)) with 0 by lia. reflexivity.
  - destruct (Z.ltb_spec i limit) as [Hlt|Hge].
    + pose proof (printable_run_spec 79 s) as [Hlen _].
      destruct (printable_run 79 s) as [l s1].
      assert (Hw : to_int32 (i + 80) = i + 80)
        by (apply to_int32_small; unfold INT32_MAX in *; lia).
      rewrite Hw.
      specialize (IH limit (i + 80) s1 ltac:(lia) Hlim ltac:(lia)).
      destruct (large_text_blocks fuel limit (i + 80) s1) as [rest s2].
      cbn [fst] in *. rewrite !length_app, !Nat2Z.inj_add, IH, Hlen.
      cbn [length].
      destruct (Z.le_gt_cases (limit - (i + 80)) 0).
      * replace (Z.max 0 (limit - (i + 80))) with 0 by lia.
        replace (Z.max 0 (limit - i)) with (limit - i) by lia.
        change ((0 + 79) / 80) with 0.
        assert ((limit - i + 79) / 80 = 1); [|lia].
        symmetry. apply Z.div_unique with (limit - i + 79 - 80); lia.
      * replace (Z.max 0 (limit - (i + 80))) with (limit - (i + 80)) by lia.
        replace (Z.max 0 (limit - i)) with (limit - i) by lia.
        replace (limit - i + 79) with (limit - (i + 80) + 79 + 1 * 80) by lia.
        rewrite Z.div_add by lia. lia.
    + cbn. replace (Z.max 0 (limit - i)) with 0 by lia. reflexivity.
Qed.

(** X30.  The large text file is made of 80-byte lines: a byte is a newline
    exactly when its offset is 79 modulo 80, every other byte is one of
    33..96, and the length is the limit rounded up to whole lines. *)
Theorem large_text_lines_are_80_bytes limit s out s' :
  0 <= limit <= INT32_MAX - 79 ->
  create_large_text limit s = (out, s') ->
  Z.of_nat (length out) = 80 * ((limit + 79) / 80) /\
  forall off, 0 <= off < Z.of_nat (length out) ->
    exists b, byte_at out off = Some b /\
      (is_newline out off = true <-> off mod 80 = 79) /\
      (off mod 80 <> 79 -> printable_byte b).
Proof.
  intros Hlim Hrun. unfold create_large_text in Hrun.
  pose proof (large_text_blocks_spec (S (Z.to_nat limit)) limit 0 s) as Hp.
  pose proof (large_text_blocks_length (S (Z.to_nat limit)) limit 0 s
    ltac:(lia) ltac:(lia) ltac:(lia)) as Hl.
  rewrite Hrun in Hp, Hl. cbn [fst] in *.
  split.
  - rewrite Hl. replace (Z.max 0 (limit - 0)) with limit by lia. reflexivity.
  - intros off Hoff.
    destruct (byte_at_in_file out off Hoff) as [b Hb].
    exists b. split; [exact Hb|].
    destruct (Hp off b Hb) as [[Hm ->]|[Hm Hpr]].
    + split; [|intros; lia]. unfold is_newline. rewrite Hb. cbn. tauto.
    + split; [|intros; assumption].
      unfold is_newline. rewrite Hb.
      pose proof (printable_not_newline b Hpr) as Hne.
      destruct (Z.eqb_spec b NL); [contradiction|]. split; [discriminate|]. intros; contradiction.
Qed.

Lemma large_text_lines_are_80_bytes_witness :
  let out := fst (create_large_text 100 seed) in
  Z.of_nat (length out) = 80 * ((100 + 79) / 80) /\
  forall off, 0 <= off < Z.of_nat (length out) ->
    exists b, byte_at out off = Some b /\
      (is_newline out off = true <-> off mod 80 = 79) /\
      (off mod 80 <> 79 -> printable_byte b).
Proof.
  intros out.
  apply (large_text_lines_are_80_bytes 100 seed out (snd (create_large_text 100 seed))).
  - vm_compute. split; discriminate.
  - reflexivity.
Defined.
